(** * sql/uniques.h: key descriptors and the Unique duplicate-elimination engine

    A shallow embedding of the inline code of [sql/uniques.h]: the two key
    descriptors, and the bounded-memory tree of [Unique_impl] with its spill
    to a temporary file.

    Integer types follow the LP64 targets of the server: [uint] and [int] are
    32 bits wide, [size_t], [ulong] and [my_off_t] are 64 bits wide.  Unsigned
    values are integers of [Z] reduced with [wrap32] / [wrap64] wherever the
    C++ arithmetic is performed in the corresponding type. *)

From Stdlib Require Import ZArith List Bool Lia.
From coqutil Require Import Byte Word.LittleEndianList.
Import ListNotations.
Local Open Scope Z_scope.

(** ** Machine arithmetic *)

Definition wrap32 (z : Z) : Z := z mod 2 ^ 32.
Definition wrap64 (z : Z) : Z := z mod 2 ^ 64.

(** Conversion [(int) x] of an unsigned value: the low 32 bits, read in two's
    complement. *)
Definition to_int (z : Z) : Z :=
  let w := wrap32 z in if w <? 2 ^ 31 then w else w - 2 ^ 32.

Definition INT_MAX : Z := 2 ^ 31 - 1.

(** [sizeof(uint)] *)
Definition sizeof_uint : Z := 4.

(** ** Key buffers *)

(** A [uchar *] argument is the sequence of bytes it addresses. *)
Definition key : Type := list byte.

(** Modelled from the spec: the byte-order macros [uint4korr] and [int4store]
    are not part of the header.  The spec fixes a 4-byte length prefix in a
    fixed byte order; the low byte comes first, as in the server's [korr]
    family.  [uint4korr] reads the first four bytes of the buffer as a
    [uint32]. *)
Definition uint4korr (p : key) : Z := le_combine (firstn 4 p).

(** Modelled from the spec: [int4store(p, v)] overwrites the first four bytes
    of the buffer with the low 32 bits of [v]; the bytes after the prefix are
    kept.  (The buffer must address at least four bytes.) *)
Definition int4store (p : key) (v : Z) : key := le_split 4 v ++ skipn 4 p.

(** Bytewise comparison of two buffers, first difference decides (a
    [memcmp]-like [qsort_cmp2] callback used by the examples). *)
Fixpoint memcmp_keys (a b : key) : Z :=
  match a, b with
  | x :: a', y :: b' =>
      if byte.unsigned x =? byte.unsigned y then memcmp_keys a' b'
      else byte.unsigned x - byte.unsigned y
  | [], [] => 0
  | [], _ :: _ => -1
  | _ :: _, [] => 1
  end.

(** ** Descriptors *)

(** [enum attributes] of [Descriptor]. *)
Definition FIXED_SIZED_KEYS : Z := 0.
Definition VARIABLE_SIZED_KEYS_WITH_ORIGINAL_VALUES : Z := 1.

(** The two concrete classes derived from [Descriptor]; each carries the
    protected members [key_length] and [flags] of the base class. *)
Inductive Descriptor : Type :=
| Fixed_size_keys_descriptor (key_length flags : Z)
| Variable_size_keys_descriptor (key_length flags : Z) (packed_rec_ptr : key).

Definition key_length (d : Descriptor) : Z :=
  match d with
  | Fixed_size_keys_descriptor l _ => l
  | Variable_size_keys_descriptor l _ _ => l
  end.

Definition flags (d : Descriptor) : Z :=
  match d with
  | Fixed_size_keys_descriptor _ f => f
  | Variable_size_keys_descriptor _ f _ => f
  end.

Definition is_variable_sized (d : Descriptor) : bool :=
  negb (Z.land (flags d)
          (Z.shiftl 1 VARIABLE_SIZED_KEYS_WITH_ORIGINAL_VALUES) =? 0).

Module Variable_size_keys.

Definition size_of_length_field : Z := 4.

(** [size_of_length_field + uint4korr(p)], computed in [uint]. *)
Definition read_packed_length (p : key) : Z :=
  wrap32 (size_of_length_field + uint4korr p).

(** [int4store(p, sz - size_of_length_field)], the difference taken in
    [uint]. *)
Definition store_packed_length (p : key) (sz : Z) : key :=
  int4store p (wrap32 (sz - size_of_length_field)).

End Variable_size_keys.

Definition get_length_of_key (d : Descriptor) (ptr : key) : Z :=
  match d with
  | Fixed_size_keys_descriptor l _ => l
  | Variable_size_keys_descriptor _ _ _ =>
      Variable_size_keys.read_packed_length ptr
  end.

Module Fixed_size_keys.

(** [Fixed_size_keys_descriptor::compare_keys] and
    [compare_keys_for_single_arg]: both bodies are [return 0]. *)
Definition compare_keys (d : Descriptor) (a b : key) : Z := 0.
Definition compare_keys_for_single_arg (d : Descriptor) (a b : key) : Z := 0.

End Fixed_size_keys.

(** ** Results of code compiled with or without [DBUG_ASSERT] *)

Inductive dbug (A : Type) : Type :=
| Done (a : A)
| Assertion_failed.
Arguments Done {A} a.
Arguments Assertion_failed {A}.

Definition dbug_bind {A B : Type} (c : dbug A) (k : A -> dbug B) : dbug B :=
  match c with
  | Done a => k a
  | Assertion_failed => Assertion_failed
  end.

Declare Scope dbug_scope.
Delimit Scope dbug_scope with dbug.
Notation "x <- c ;; k" := (dbug_bind c (fun x => k))
  (at level 61, c at next level, right associativity) : dbug_scope.
Local Open Scope dbug_scope.

(** ** The ordered container behind the engine *)

Module Tree.

(** An entry of the in-memory tree: the stored key and its occurrence
    counter. *)
Record TREE_ELEMENT : Type := mkElement
  { element_key : key;
    element_count : Z }.

(** The members of [TREE] that the header reads or writes
    ([elements_in_tree], [flag], [size_of_element], the comparison callback
    together with its [custom_arg]); the struct itself is declared in
    [my_tree.h].  [nodes] stands for the linked nodes: the entries in key
    order. *)
Record TREE : Type := mkTREE
  { elements_in_tree : Z;
    flag : Z;
    size_of_element : Z;
    compare : key -> key -> Z;
    nodes : list TREE_ELEMENT }.

Definition set_nodes (t : TREE) (l : list TREE_ELEMENT) (n : Z) : TREE :=
  {| elements_in_tree := n;
     flag := flag t;
     size_of_element := size_of_element t;
     compare := compare t;
     nodes := l |}.

Definition set_flag (t : TREE) (f : Z) : TREE :=
  {| elements_in_tree := elements_in_tree t;
     flag := f;
     size_of_element := size_of_element t;
     compare := compare t;
     nodes := nodes t |}.

(** What [tree_insert] hands back: a null pointer, a pointer to the entry
    that now holds the key, or the marker for a key that is not in a tree
    that accepts duplicates only. *)
Inductive insert_result : Type :=
| Null
| Element (e : TREE_ELEMENT)
| Element_unique.

Definition is_null (r : insert_result) : bool :=
  match r with Null => true | _ => false end.

(** Modelled from the spec: the search tree of [my_tree.h] is not part of
    the header; the spec treats it as an ordered container keyed by the
    comparator.  The descent compares the stored key with the new one:
    zero stops at a match, a negative result moves on to larger entries, a
    positive one ends the search. *)
Fixpoint search (cmp : key -> key -> Z) (k : key) (l : list TREE_ELEMENT)
  : option TREE_ELEMENT :=
  match l with
  | [] => None
  | e :: l' =>
      let c := cmp (element_key e) k in
      if c =? 0 then Some e
      else if c <? 0 then search cmp k l'
      else None
  end.

(** Modelled from the spec: a new entry is linked in at the place where
    the descent ended. *)
Fixpoint place (cmp : key -> key -> Z) (k : key) (e : TREE_ELEMENT)
  (l : list TREE_ELEMENT) : list TREE_ELEMENT :=
  match l with
  | [] => [e]
  | x :: l' =>
      if cmp (element_key x) k <? 0
      then x :: place cmp k e l'
      else e :: x :: l'
  end.

(** Modelled from the spec: a duplicate updates the counter of the
    matching entry in place. *)
Fixpoint count_up (cmp : key -> key -> Z) (k : key)
  (l : list TREE_ELEMENT) : list TREE_ELEMENT :=
  match l with
  | [] => []
  | e :: l' =>
      let c := cmp (element_key e) k in
      if c =? 0 then mkElement (element_key e) (element_count e + 1) :: l'
      else if c <? 0 then e :: count_up cmp k l'
      else l
  end.

End Tree.

(** ** The spill file *)

(** Modelled from the spec: [IO_CACHE] and [my_b_tell] belong to the file
    service, which is declared outside the header; the spec describes a
    sequential file to which bytes are appended and whose write offset can be
    read.  The cache is the bytes appended so far. *)
Record IO_CACHE : Type := mkIO
  { file_data : list byte }.

(** Modelled from the spec: [my_b_tell], the current write offset, a
    [my_off_t]. *)
Definition my_b_tell (f : IO_CACHE) : Z :=
  wrap64 (Z.of_nat (length (file_data f))).

(** Modelled from the spec: appending bytes to the file. *)
Definition my_b_append (f : IO_CACHE) (bs : list byte) : IO_CACHE :=
  {| file_data := file_data f ++ bs |}.

(** ** Engine state *)

(** The data members of [Unique_impl] that the inline code and [flush] work
    on, and the descriptor inherited from [Unique]. *)
Record Unique_impl : Type := mkUnique
  { file_ptrs : list Z;
    max_in_memory_size : Z;
    file : IO_CACHE;
    tree : Tree.TREE;
    size : Z;
    full_size : Z;
    min_dupl_count : Z;
    with_counters : bool;
    memory_used : Z;
    elements : Z;
    m_descriptor : Descriptor }.

Definition set_tree (u : Unique_impl) (t : Tree.TREE) : Unique_impl :=
  {| file_ptrs := file_ptrs u; max_in_memory_size := max_in_memory_size u;
     file := file u; tree := t; size := size u; full_size := full_size u;
     min_dupl_count := min_dupl_count u; with_counters := with_counters u;
     memory_used := memory_used u; elements := elements u;
     m_descriptor := m_descriptor u |}.

Definition set_memory_used (u : Unique_impl) (m : Z) : Unique_impl :=
  {| file_ptrs := file_ptrs u; max_in_memory_size := max_in_memory_size u;
     file := file u; tree := tree u; size := size u; full_size := full_size u;
     min_dupl_count := min_dupl_count u; with_counters := with_counters u;
     memory_used := m; elements := elements u;
     m_descriptor := m_descriptor u |}.

Definition set_file (u : Unique_impl) (f : IO_CACHE) : Unique_impl :=
  {| file_ptrs := file_ptrs u; max_in_memory_size := max_in_memory_size u;
     file := f; tree := tree u; size := size u; full_size := full_size u;
     min_dupl_count := min_dupl_count u; with_counters := with_counters u;
     memory_used := memory_used u; elements := elements u;
     m_descriptor := m_descriptor u |}.

(** Modelled from the spec: the state in which [flush] (defined outside the
    header) leaves the engine after a completed run.  The run's starting
    offset joins the directory, the counter of flushed entries grows by the
    size of the tree, the tree is empty again and nothing is charged to
    it. *)
Definition run_completed (u : Unique_impl) (f : IO_CACHE) : Unique_impl :=
  {| file_ptrs := file_ptrs u ++ [my_b_tell (file u)];
     max_in_memory_size := max_in_memory_size u;
     file := f;
     tree := Tree.set_nodes (tree u) [] 0;
     size := size u; full_size := full_size u;
     min_dupl_count := min_dupl_count u; with_counters := with_counters u;
     memory_used := 0;
     elements := wrap64 (elements u + Tree.elements_in_tree (tree u));
     m_descriptor := m_descriptor u |}.

(** What the services under the engine answer during one call: whether the
    allocation of a tree node succeeds, whether the run can be written to the
    spill file, whether the run directory can grow. *)
Record services : Type := mkServices
  { node_alloc_ok : bool;
    spill_write_ok : bool;
    directory_alloc_ok : bool }.

Definition all_ok : services := mkServices true true true.

(** A call of [unique_add] as the caller issues it: the key buffer, its
    length, and what the services answer during the call. *)
Record call : Type := mkCall
  { call_services : services;
    call_ptr : key;
    call_size : Z }.

(** ** Example data *)

(** An engine that holds nothing yet: empty tree ordered by [memcmp_keys],
    no flag set, nothing charged, nothing spilled. *)
Definition empty_engine (budget : Z) : Unique_impl :=
  {| file_ptrs := [];
     max_in_memory_size := budget;
     file := mkIO [];
     tree := Tree.mkTREE 0 0 0 memcmp_keys [];
     size := 6; full_size := 6;
     min_dupl_count := 0; with_counters := false;
     memory_used := 0; elements := 0;
     m_descriptor := Fixed_size_keys_descriptor 6 1 |}.

(** The same engine with a descriptor for variable-size keys. *)
Definition packed_engine (budget : Z) : Unique_impl :=
  {| file_ptrs := [];
     max_in_memory_size := budget;
     file := mkIO [];
     tree := Tree.mkTREE 0 0 0 memcmp_keys [];
     size := 0; full_size := 0;
     min_dupl_count := 0; with_counters := false;
     memory_used := 0; elements := 0;
     m_descriptor := Variable_size_keys_descriptor 0 2 [] |}.

(** An engine whose tree holds one entry that is charged 124 bytes, as
    after the admission of a 100-byte key. *)
Definition loaded_engine (budget : Z) : Unique_impl :=
  {| file_ptrs := [];
     max_in_memory_size := budget;
     file := mkIO [];
     tree := Tree.mkTREE 1 0 0 memcmp_keys
               [Tree.mkElement (repeat Byte.x77 100) 1];
     size := 6; full_size := 6;
     min_dupl_count := 0; with_counters := false;
     memory_used := 124; elements := 0;
     m_descriptor := Fixed_size_keys_descriptor 6 1 |}.

Definition key_a : key := repeat Byte.x61 6.
Definition key_b : key := repeat Byte.x62 6.
Definition key_wide : key := repeat Byte.x77 100.

(** Occurrence counts written as four bytes, low byte first. *)
Definition count_field_4 (c : Z) : list byte := le_split 4 c.

(** Rounding up to a multiple of 8. *)
Definition align_8 (a : Z) : Z := Z.land (wrap64 (a + 7)) (2 ^ 64 - 8).

(** ** The engine *)

Section Engine.

(** [sizeof(TREE_ELEMENT)] and the flag bit [TREE_ONLY_DUPS] come from
    [my_tree.h], the rounding macro [ALIGN_SIZE] from [my_global.h]; none of
    them is defined in the header, so they are parameters here. *)
Variable sizeof_TREE_ELEMENT : Z.
Variable TREE_ONLY_DUPS : Z.
Variable ALIGN_SIZE : Z -> Z.

(** Whether the build defines [DBUG_OFF]: then [DBUG_ASSERT] expands to
    nothing. *)
Variable DBUG_OFF : bool.

(** The bytes of the occurrence-count field that follows a key in a run
    when counters are stored; written by [write_record_to_file], which the
    header only declares. *)
Variable count_field : Z -> list byte.

Definition DBUG_ASSERT (c : bool) : dbug unit :=
  if DBUG_OFF then Done tt
  else if c then Done tt else Assertion_failed.

(** Modelled from the spec: [tree_insert] of the ordered container service
    (not in the header).  A key that matches an entry updates that entry's
    counter; an unmatched key is only reported when the tree is in
    [TREE_ONLY_DUPS] mode; otherwise a node is allocated for the first
    [key_size] bytes of the key and the element count grows, and a failed
    allocation gives a null result. *)
Definition tree_insert (alloc_ok : bool) (t : Tree.TREE) (k : key)
  (key_size : Z) : Tree.insert_result * Tree.TREE :=
  match Tree.search (Tree.compare t) k (Tree.nodes t) with
  | Some e =>
      (Tree.Element
         (Tree.mkElement (Tree.element_key e) (Tree.element_count e + 1)),
       Tree.set_nodes t (Tree.count_up (Tree.compare t) k (Tree.nodes t))
         (Tree.elements_in_tree t))
  | None =>
      if negb (Z.land (Tree.flag t) TREE_ONLY_DUPS =? 0)
      then (Tree.Element_unique, t)
      else if alloc_ok then
        let e := Tree.mkElement (firstn (Z.to_nat key_size) k) 1 in
        (Tree.Element e,
         Tree.set_nodes t (Tree.place (Tree.compare t) k e (Tree.nodes t))
           (wrap32 (Tree.elements_in_tree t + 1)))
      else (Tree.Null, t)
  end.

(** Modelled from the spec: the layout of a run.  Keys follow each other
    back to back, each followed by its occurrence count when counters are
    stored. *)
Definition record_image (u : Unique_impl) (e : Tree.TREE_ELEMENT)
  : list byte :=
  Tree.element_key e ++
  (if with_counters u then count_field (Tree.element_count e) else []).

Definition run_image (u : Unique_impl) : list byte :=
  flat_map (record_image u) (Tree.nodes (tree u)).

(** Modelled from the spec: [Unique_impl::flush] is defined outside the
    header.  Every entry of the tree is written in key order as one run,
    the run's starting offset is appended to the directory, the tree is
    cleared and [memory_used] returns to 0; a failed write or a directory
    that cannot grow gives failure ([true]). *)
Definition flush (sv : services) (u : Unique_impl) : bool * Unique_impl :=
  if negb (spill_write_ok sv) then (true, u)
  else
    let f := my_b_append (file u) (run_image u) in
    if negb (directory_alloc_ok sv) then (true, set_file u f)
    else (false, run_completed u f).

Definition space_left (u : Unique_impl) : dbug Z :=
  _ <- DBUG_ASSERT (max_in_memory_size u >=? memory_used u) ;;
  Done (wrap64 (max_in_memory_size u - memory_used u)).

Definition is_full (u : Unique_impl) (record_size : Z) : dbug bool :=
  if Tree.elements_in_tree (tree u) =? 0 then Done false
  else
    left <- space_left u ;;
    Done (record_size >? left).

Definition is_in_memory (u : Unique_impl) : bool :=
  my_b_tell (file u) =? 0.

Definition elements_in_tree (u : Unique_impl) : Z :=
  Tree.elements_in_tree (tree u).

Definition get_n_elements (u : Unique_impl) : Z :=
  if is_in_memory u then elements_in_tree u else elements u.

Definition close_for_expansion (u : Unique_impl) : Unique_impl :=
  set_tree u (Tree.set_flag (tree u) TREE_ONLY_DUPS).

(** [size_arg + sizeof(TREE_ELEMENT) + tree.size_of_element], a [size_t]. *)
Definition rec_size (u : Unique_impl) (size_arg : Z) : Z :=
  wrap64 (wrap64 (size_arg + sizeof_TREE_ELEMENT)
          + Tree.size_of_element (tree u)).

(** The guard [!(tree.flag & TREE_ONLY_DUPS) && is_full(rec_size)] in front
    of the call of [flush]. *)
Definition must_flush (u : Unique_impl) (record_size : Z) : dbug bool :=
  if Z.land (Tree.flag (tree u)) TREE_ONLY_DUPS =? 0
  then is_full u record_size
  else Done false.

(** The part of [unique_add] after the guard: the element count is noted,
    the key goes to [tree_insert], and the record is charged when the count
    has changed.  The result is [!res]. *)
Definition insert_and_charge (sv : services) (u : Unique_impl) (ptr : key)
  (size_arg record_size : Z) : bool * Unique_impl :=
  let count := Tree.elements_in_tree (tree u) in
  let '(res, t) := tree_insert (node_alloc_ok sv) (tree u) ptr size_arg in
  let u1 := set_tree u t in
  let u2 :=
    if negb (Tree.elements_in_tree t =? count)
    then set_memory_used u1 (wrap64 (memory_used u1 + record_size))
    else u1 in
  (Tree.is_null res, u2).

(** [unique_add(void *ptr, uint size_arg)]; [true] is the failure result
    [1]. *)
Definition unique_add (sv : services) (u : Unique_impl) (ptr : key)
  (size_arg : Z) : dbug (bool * Unique_impl) :=
  let record_size := rec_size u size_arg in
  full <- must_flush u record_size ;;
  let '(failed, u1) := if full then flush sv u else (false, u) in
  if failed then Done (true, u1)
  else Done (insert_and_charge sv u1 ptr size_arg record_size).

(** [unique_add(void *ptr)]: the length comes from the descriptor. *)
Definition unique_add_ptr (sv : services) (u : Unique_impl) (ptr : key)
  : dbug (bool * Unique_impl) :=
  unique_add sv u ptr (get_length_of_key (m_descriptor u) ptr).

Definition get_cost_calc_buff_size (nkeys key_size max_in_memory_size : Z)
  : Z :=
  let max_elems_in_tree :=
    max_in_memory_size / ALIGN_SIZE (wrap64 (sizeof_TREE_ELEMENT + key_size)) in
  let max_elems_in_tree :=
    if max_elems_in_tree =? 0 then 1 else max_elems_in_tree in
  to_int (wrap64 (sizeof_uint * wrap64 (1 + nkeys / max_elems_in_tree))).

(** A series of calls, whatever each of them returns; an assertion that
    fails ends the program. *)
Fixpoint unique_add_all (cs : list call) (u : Unique_impl)
  : dbug Unique_impl :=
  match cs with
  | [] => Done u
  | c :: cs' =>
      r <- unique_add (call_services c) u (call_ptr c) (call_size c) ;;
      unique_add_all cs' (snd r)
  end.


(** The accessors of [Unique_impl]. *)
Definition get_size (u : Unique_impl) : Z := size u.
Definition get_full_size (u : Unique_impl) : Z := full_size u.
Definition get_max_in_memory_size (u : Unique_impl) : Z :=
  max_in_memory_size u.
Definition is_count_stored (u : Unique_impl) : bool := with_counters u.
Definition get_file (u : Unique_impl) : IO_CACHE := file u.
Definition get_descriptor (u : Unique_impl) : Descriptor := m_descriptor u.

(** [Unique_impl::is_variable_sized]: the answer of the descriptor. *)
Definition Unique_impl_is_variable_sized (u : Unique_impl) : bool :=
  is_variable_sized (m_descriptor u).

(** ** Vocabulary of the statements *)

(** The guard of [unique_add] read as a plain condition: the tree is not in
    [TREE_ONLY_DUPS] mode, it holds an element, and the record is larger
    than the difference [max_in_memory_size - memory_used] as [size_t]
    arithmetic gives it. *)
Definition budget_exceeded (u : Unique_impl) (record_size : Z) : bool :=
  (Z.land (Tree.flag (tree u)) TREE_ONLY_DUPS =? 0)
  && negb (Tree.elements_in_tree (tree u) =? 0)
  && (record_size >? wrap64 (max_in_memory_size u - memory_used u)).

(** [space_left] can be evaluated: the build has no assertions, or the
    asserted condition holds. *)
Definition space_left_safe (u : Unique_impl) : Prop :=
  DBUG_OFF = true \/ memory_used u <= max_in_memory_size u.

(** The key that [tree_insert] looks for is already an entry of the
    tree. *)
Definition is_duplicate (u : Unique_impl) (ptr : key) : bool :=
  match Tree.search (Tree.compare (tree u)) ptr (Tree.nodes (tree u)) with
  | Some _ => true
  | None => false
  end.

(** The element counter of the tree agrees with its entries. *)
Definition counted (t : Tree.TREE) : Prop :=
  Tree.elements_in_tree t = wrap32 (Z.of_nat (length (Tree.nodes t))).

(** The budget is respected: at most [max_in_memory_size] is charged, and
    nothing is charged to an empty tree. *)
Definition within_budget (u : Unique_impl) : Prop :=
  0 <= memory_used u <= max_in_memory_size u /\
  (Tree.elements_in_tree (tree u) = 0 -> memory_used u = 0).

(** The record of a call fits the budget on its own. *)
Definition fits (u : Unique_impl) (c : call) : bool :=
  rec_size u (call_size c) <=? max_in_memory_size u.

(** What the entries of a tree are charged in all: for each entry the
    length of its key plus the overhead of a node. *)
Definition charge_of (overhead : Z) (l : list Tree.TREE_ELEMENT) : Z :=
  fold_right
    (fun e acc => Z.of_nat (length (Tree.element_key e)) + overhead + acc)
    0 l.

Definition charged (u : Unique_impl) : Z :=
  charge_of (sizeof_TREE_ELEMENT + Tree.size_of_element (tree u))
    (Tree.nodes (tree u)).

(** The length passed with a key does not reach beyond its buffer. *)
Definition inside_buffer (c : call) : bool :=
  (0 <=? call_size c) && (call_size c <=? Z.of_nat (length (call_ptr c))).

(** The values every accessor of the configuration returns, together with
    the members of the tree that are set when it is initialised. *)
Definition same_configuration (u u' : Unique_impl) : Prop :=
  get_max_in_memory_size u' = get_max_in_memory_size u /\
  get_size u' = get_size u /\
  get_full_size u' = get_full_size u /\
  is_count_stored u' = is_count_stored u /\
  get_descriptor u' = get_descriptor u /\
  Unique_impl_is_variable_sized u' = Unique_impl_is_variable_sized u /\
  min_dupl_count u' = min_dupl_count u /\
  Tree.flag (tree u') = Tree.flag (tree u) /\
  Tree.size_of_element (tree u') = Tree.size_of_element (tree u) /\
  Tree.compare (tree u') = Tree.compare (tree u).

(** The number of [uint] slots that [get_cost_calc_buff_size] provides
    for, as the exact value of its formula. *)
Definition slots (nkeys key_size budget : Z) : Z :=
  1 + nkeys / Z.max 1 (budget / ALIGN_SIZE (sizeof_TREE_ELEMENT + key_size)).

(** Arguments of [get_cost_calc_buff_size] within their types, for a node
    size that leaves room for a [uint] key size and an [ALIGN_SIZE] that
    does not return zero (the division is undefined otherwise). *)
Definition cost_arguments (nkeys key_size budget : Z) : Prop :=
  0 <= sizeof_TREE_ELEMENT /\
  sizeof_TREE_ELEMENT + 2 ^ 32 <= 2 ^ 64 /\
  0 <= key_size < 2 ^ 32 /\
  0 <= nkeys < 2 ^ 64 /\
  0 <= budget < 2 ^ 64 /\
  0 < ALIGN_SIZE (sizeof_TREE_ELEMENT + key_size).

(** * Properties *)

(** ** Machine arithmetic *)

Lemma wrap32_range (z : Z) : 0 <= wrap32 z < 2 ^ 32.
Proof. unfold wrap32. apply Z.mod_pos_bound. lia. Qed.

Lemma wrap64_range (z : Z) : 0 <= wrap64 z < 2 ^ 64.
Proof. unfold wrap64. apply Z.mod_pos_bound. lia. Qed.

Lemma wrap32_small (z : Z) : 0 <= z < 2 ^ 32 -> wrap32 z = z.
Proof. intros H. unfold wrap32. apply Z.mod_small. exact H. Qed.

Lemma wrap64_small (z : Z) : 0 <= z < 2 ^ 64 -> wrap64 z = z.
Proof. intros H. unfold wrap64. apply Z.mod_small. exact H. Qed.

Lemma to_int_small (z : Z) : 0 <= z <= INT_MAX -> to_int z = z.
Proof.
  unfold INT_MAX, to_int. intros H.
  rewrite wrap32_small by lia.
  destruct (Z.ltb_spec z (2 ^ 31)); lia.
Qed.

(** Incrementing a 32-bit counter never gives the old value back. *)
Lemma wrap32_succ_neq (n : Z) : wrap32 (n + 1) <> n.
Proof.
  unfold wrap32. intros H.
  pose proof (Z.mod_pos_bound (n + 1) (2 ^ 32) ltac:(lia)) as B.
  pose proof (Z.div_mod (n + 1) (2 ^ 32) ltac:(lia)) as E.
  rewrite H in E, B. lia.
Qed.

(** ** Length prefix of packed keys *)

Lemma uint4korr_int4store (p : key) (v : Z) :
  uint4korr (int4store p v) = wrap32 v.
Proof.
  unfold uint4korr, int4store, wrap32.
  rewrite firstn_app, length_le_split, Nat.sub_diag, firstn_O, app_nil_r.
  rewrite firstn_all2 by (rewrite length_le_split; lia).
  rewrite le_combine_split. reflexivity.
Qed.

Lemma int4store_keeps_payload (p : key) (v : Z) :
  skipn 4 (int4store p v) = skipn 4 p.
Proof.
  unfold int4store.
  rewrite skipn_app, length_le_split, Nat.sub_diag.
  rewrite skipn_all2 by (rewrite length_le_split; lia).
  reflexivity.
Qed.

Lemma uint4korr_range (p : key) : 0 <= uint4korr p < 2 ^ 32.
Proof.
  unfold uint4korr.
  pose proof (le_combine_bound (firstn 4 p)) as B.
  pose proof (firstn_le_length 4 p) as L.
  assert (2 ^ (8 * Z.of_nat (length (firstn 4 p))) <= 2 ^ 32)
    by (apply Z.pow_le_mono_r; lia).
  lia.
Qed.

(** C6, amended. For the variable-size descriptor [get_length_of_key]
    returns the sum of 4 and the payload length held in the 4-byte prefix at
    [ptr], taken as a [uint]: it is 4 plus the stored payload length exactly
    when that length is below [2^32 - 4].  In particular, after
    [store_packed_length p sz] with a total size [4 <= sz < 2^32] the prefix
    holds [sz - 4], [get_length_of_key] returns 4 plus that prefix,
    [read_packed_length] returns exactly [sz], and the payload bytes are
    left alone. *)
Theorem get_length_of_packed_key
  (kl fl : Z) (rec_ptr ptr p : key) (sz : Z) :
  let d := Variable_size_keys_descriptor kl fl rec_ptr in
  get_length_of_key d ptr
    = wrap32 (Variable_size_keys.size_of_length_field + uint4korr ptr) /\
  (get_length_of_key d ptr
     = Variable_size_keys.size_of_length_field + uint4korr ptr
   <-> uint4korr ptr < 2 ^ 32 - 4) /\
  (4 <= sz < 2 ^ 32 ->
   let p' := Variable_size_keys.store_packed_length p sz in
   uint4korr p' = sz - 4 /\
   get_length_of_key d p'
     = Variable_size_keys.size_of_length_field + uint4korr p' /\
   Variable_size_keys.read_packed_length p' = sz /\
   skipn 4 p' = skipn 4 p).
Proof.
  intros d. subst d.
  unfold get_length_of_key, Variable_size_keys.read_packed_length,
    Variable_size_keys.store_packed_length,
    Variable_size_keys.size_of_length_field.
  split; [reflexivity |].
  split.
  - pose proof (uint4korr_range ptr) as R. split.
    + intros E. pose proof (wrap32_range (4 + uint4korr ptr)) as W.
      rewrite E in W. lia.
    + intros H. apply wrap32_small. lia.
  - intros Hsz. cbv zeta.
    rewrite uint4korr_int4store, int4store_keeps_payload.
    rewrite (wrap32_small (sz - 4)) by lia.
    rewrite (wrap32_small (sz - 4)) by lia.
    replace (4 + (sz - 4)) with sz by lia.
    rewrite wrap32_small by lia.
    repeat split; lia.
Qed.

(** The sum of [read_packed_length] is a [uint]: a prefix within 4 of
    [2^32] wraps around. *)
Example read_packed_length_wraps :
  Variable_size_keys.read_packed_length (repeat Byte.xff 4) = 3.
Proof. reflexivity. Qed.

(** ** Comparison of fixed-size keys *)

(** C4, amended. The fixed-size descriptor consults no comparator: its
    [compare_keys] and [compare_keys_for_single_arg] return 0 for every
    pair of key buffers. *)
Theorem fixed_size_compare_keys_constant (d : Descriptor) (a b : key) :
  Fixed_size_keys.compare_keys d a b = 0 /\
  Fixed_size_keys.compare_keys_for_single_arg d a b = 0.
Proof. split; reflexivity. Qed.

(** ** Counting elements *)

Lemma my_b_tell_zero (f : IO_CACHE) :
  Z.of_nat (length (file_data f)) < 2 ^ 64 ->
  (my_b_tell f = 0 <-> file_data f = []).
Proof.
  intros Hlen. unfold my_b_tell.
  rewrite wrap64_small by lia.
  destruct (file_data f); simpl; split; intros H;
    try reflexivity; try discriminate; lia.
Qed.

(** C5. [get_n_elements] returns [elements_in_tree] while the engine is in
    memory and the running [elements] counter otherwise; the engine is in
    memory exactly when the write position of the spill file is 0, that is
    (for a file below 2^64 bytes) when nothing has been written to it. *)
Theorem get_n_elements_split (u : Unique_impl) :
  Z.of_nat (length (file_data (file u))) < 2 ^ 64 ->
  (is_in_memory u = true <-> my_b_tell (file u) = 0) /\
  (is_in_memory u = true <-> file_data (file u) = []) /\
  (is_in_memory u = true -> get_n_elements u = elements_in_tree u) /\
  (is_in_memory u = false -> get_n_elements u = elements u).
Proof.
  intros Hlen.
  assert (Hpos : is_in_memory u = true <-> my_b_tell (file u) = 0)
    by (unfold is_in_memory; apply Z.eqb_eq).
  repeat split.
  - apply Hpos.
  - apply Hpos.
  - intros H. apply (my_b_tell_zero _ Hlen), Hpos, H.
  - intros H. apply Hpos, (my_b_tell_zero _ Hlen), H.
  - intros H. unfold get_n_elements. rewrite H. reflexivity.
  - intros H. unfold get_n_elements. rewrite H. reflexivity.
Qed.

(** ** Cost model *)

(** C7, amended. With [max_elems_in_tree = max(1, max_in_memory_size /
    ALIGN_SIZE(sizeof(TREE_ELEMENT) + key_size))], the function returns
    [sizeof(uint) * (1 + nkeys / max_elems_in_tree)] computed in [size_t]
    and converted to [int]; this is the exact value of the formula
    whenever that value is at most [INT_MAX]. *)
Theorem get_cost_calc_buff_size_formula (nkeys key_size budget : Z) :
  0 <= sizeof_TREE_ELEMENT ->
  sizeof_TREE_ELEMENT + 2 ^ 32 <= 2 ^ 64 ->
  0 <= key_size < 2 ^ 32 ->
  0 <= nkeys < 2 ^ 64 ->
  0 <= budget < 2 ^ 64 ->
  0 < ALIGN_SIZE (sizeof_TREE_ELEMENT + key_size) ->
  let max_elems_in_tree :=
    Z.max 1 (budget / ALIGN_SIZE (sizeof_TREE_ELEMENT + key_size)) in
  let exact := sizeof_uint * (1 + nkeys / max_elems_in_tree) in
  get_cost_calc_buff_size nkeys key_size budget = to_int (wrap64 exact) /\
  (exact <= INT_MAX ->
   get_cost_calc_buff_size nkeys key_size budget = exact).
Proof.
  intros Hs0 Hs1 Hk Hn Hb Ha m exact.
  assert (Hq : 0 <= budget / ALIGN_SIZE (sizeof_TREE_ELEMENT + key_size))
    by (apply Z.div_pos; lia).
  assert (Hm : (if budget / ALIGN_SIZE (wrap64 (sizeof_TREE_ELEMENT + key_size))
                   =? 0
                then 1
                else budget / ALIGN_SIZE (wrap64 (sizeof_TREE_ELEMENT + key_size)))
               = m).
  { rewrite wrap64_small by lia. subst m.
    destruct (Z.eqb_spec
                (budget / ALIGN_SIZE (sizeof_TREE_ELEMENT + key_size)) 0);
      lia. }
  assert (Hm1 : 1 <= m) by (subst m; lia).
  assert (Hd : 0 <= nkeys / m <= nkeys).
  { split.
    - apply Z.div_pos; lia.
    - apply Z.div_le_upper_bound; nia. }
  assert (Hcalc : get_cost_calc_buff_size nkeys key_size budget
                  = to_int (wrap64 exact)).
  { unfold get_cost_calc_buff_size. cbv zeta. rewrite Hm.
    subst exact. unfold sizeof_uint, wrap64.
    f_equal. rewrite Z.mul_mod_idemp_r by lia. reflexivity. }
  split.
  - exact Hcalc.
  - intros Hfit. rewrite Hcalc.
    assert (0 <= exact) by (subst exact; unfold sizeof_uint; lia).
    unfold INT_MAX in Hfit.
    rewrite wrap64_small by lia.
    apply to_int_small. unfold INT_MAX. lia.
Qed.

(** ** The guard in front of [flush] *)

Lemma must_flush_only_dups (u : Unique_impl) (record_size : Z) :
  Z.land (Tree.flag (tree u)) TREE_ONLY_DUPS <> 0 ->
  must_flush u record_size = Done false.
Proof.
  intros H. unfold must_flush.
  destruct (Z.eqb_spec (Z.land (Tree.flag (tree u)) TREE_ONLY_DUPS) 0);
    [contradiction | reflexivity].
Qed.

Lemma must_flush_empty (u : Unique_impl) (record_size : Z) :
  Tree.elements_in_tree (tree u) = 0 ->
  must_flush u record_size = Done false.
Proof.
  intros H. unfold must_flush, is_full. rewrite H. simpl.
  destruct (Z.land (Tree.flag (tree u)) TREE_ONLY_DUPS =? 0); reflexivity.
Qed.

Lemma must_flush_safe (u : Unique_impl) (record_size : Z) :
  space_left_safe u ->
  must_flush u record_size = Done (budget_exceeded u record_size).
Proof.
  intros Hsafe.
  unfold must_flush, budget_exceeded, is_full, space_left, DBUG_ASSERT.
  destruct (Z.land (Tree.flag (tree u)) TREE_ONLY_DUPS =? 0); simpl;
    [| reflexivity].
  destruct (Tree.elements_in_tree (tree u) =? 0); simpl; [reflexivity |].
  destruct Hsafe as [Hoff | Hle].
  - rewrite Hoff. reflexivity.
  - destruct DBUG_OFF; [reflexivity |].
    destruct (Z.geb_spec (max_in_memory_size u) (memory_used u));
      [reflexivity | lia].
Qed.

(** In a build with assertions the guard stops the program when the tree
    holds an element and more is charged than the budget. *)
Lemma must_flush_assertion (u : Unique_impl) (record_size : Z) :
  DBUG_OFF = false ->
  Z.land (Tree.flag (tree u)) TREE_ONLY_DUPS = 0 ->
  Tree.elements_in_tree (tree u) <> 0 ->
  max_in_memory_size u < memory_used u ->
  must_flush u record_size = Assertion_failed.
Proof.
  intros Hdbg Hflag Hn Hover.
  unfold must_flush, is_full, space_left, DBUG_ASSERT.
  rewrite Hflag, Hdbg. simpl.
  destruct (Z.eqb_spec (Tree.elements_in_tree (tree u)) 0);
    [contradiction |].
  destruct (Z.geb_spec (max_in_memory_size u) (memory_used u));
    [lia | reflexivity].
Qed.

(** ** [tree_insert] *)

Lemma tree_insert_frame (ok : bool) (t : Tree.TREE) (k : key) (n : Z) :
  let t' := snd (tree_insert ok t k n) in
  Tree.flag t' = Tree.flag t /\
  Tree.size_of_element t' = Tree.size_of_element t /\
  Tree.compare t' = Tree.compare t.
Proof.
  unfold tree_insert.
  destruct (Tree.search (Tree.compare t) k (Tree.nodes t));
    [simpl; auto |].
  destruct (negb (Z.land (Tree.flag t) TREE_ONLY_DUPS =? 0));
    [simpl; auto |].
  destruct ok; simpl; auto.
Qed.

(** The three ways [tree_insert] can end. *)
Lemma tree_insert_cases (ok : bool) (t : Tree.TREE) (k : key) (n : Z) :
  let r := tree_insert ok t k n in
  (exists e, Tree.search (Tree.compare t) k (Tree.nodes t) = Some e /\
             fst r = Tree.Element
                       (Tree.mkElement (Tree.element_key e)
                          (Tree.element_count e + 1)) /\
             Tree.elements_in_tree (snd r) = Tree.elements_in_tree t /\
             length (Tree.nodes (snd r)) = length (Tree.nodes t))
  \/ (Tree.search (Tree.compare t) k (Tree.nodes t) = None /\
      Z.land (Tree.flag t) TREE_ONLY_DUPS = 0 /\ ok = true /\
      fst r = Tree.Element (Tree.mkElement (firstn (Z.to_nat n) k) 1) /\
      Tree.elements_in_tree (snd r) = wrap32 (Tree.elements_in_tree t + 1) /\
      Tree.nodes (snd r) =
        Tree.place (Tree.compare t) k
          (Tree.mkElement (firstn (Z.to_nat n) k) 1) (Tree.nodes t))
  \/ (Tree.search (Tree.compare t) k (Tree.nodes t) = None /\
      (Z.land (Tree.flag t) TREE_ONLY_DUPS <> 0 \/ ok = false) /\
      (fst r = Tree.Null <->
       Z.land (Tree.flag t) TREE_ONLY_DUPS = 0 /\ ok = false) /\
      (fst r = Tree.Null \/ fst r = Tree.Element_unique) /\
      snd r = t).
Proof.
  unfold tree_insert.
  destruct (Tree.search (Tree.compare t) k (Tree.nodes t)) as [e |] eqn:Hs.
  - left. exists e. simpl. repeat split.
    clear Hs. induction (Tree.nodes t) as [| x l IH]; simpl; [reflexivity |].
    destruct (Tree.compare t (Tree.element_key x) k =? 0);
      [reflexivity |].
    destruct (Tree.compare t (Tree.element_key x) k <? 0); simpl;
      [f_equal; exact IH | reflexivity].
  - right.
    destruct (Z.eqb_spec (Z.land (Tree.flag t) TREE_ONLY_DUPS) 0) as [Hf | Hf];
      simpl.
    + destruct ok; simpl.
      * left. repeat split; assumption.
      * right. repeat split; auto.
    + right. repeat split; auto; try discriminate.
      intros [H _]. contradiction.
Qed.

(** ** [unique_add] *)

Lemma unique_add_unfold (sv : services) (u : Unique_impl) (ptr : key)
  (n : Z) (full : bool) :
  must_flush u (rec_size u n) = Done full ->
  unique_add sv u ptr n =
    if full && fst (flush sv u) then Done (true, snd (flush sv u))
    else Done (insert_and_charge sv (if full then snd (flush sv u) else u)
                 ptr n (rec_size u n)).
Proof.
  intros H. unfold unique_add. rewrite H. simpl.
  destruct full; simpl; [| reflexivity].
  destruct (flush sv u) as [failed u1]; simpl.
  destruct failed; reflexivity.
Qed.

(** What the insertion step leaves alone. *)
Lemma insert_and_charge_frame (sv : services) (u : Unique_impl) (ptr : key)
  (n rs : Z) :
  let u' := snd (insert_and_charge sv u ptr n rs) in
  file u' = file u /\ file_ptrs u' = file_ptrs u /\
  elements u' = elements u /\
  max_in_memory_size u' = max_in_memory_size u /\
  Tree.flag (tree u') = Tree.flag (tree u) /\
  Tree.size_of_element (tree u') = Tree.size_of_element (tree u).
Proof.
  unfold insert_and_charge.
  pose proof (tree_insert_frame (node_alloc_ok sv) (tree u) ptr n) as F.
  destruct (tree_insert (node_alloc_ok sv) (tree u) ptr n) as [res t].
  simpl in F. destruct F as (Ff & Fs & _).
  destruct (negb (Tree.elements_in_tree t =? Tree.elements_in_tree (tree u)));
    simpl; auto 10.
Qed.

(** The insertion step, case by case: a duplicate, a new entry, or a key
    that is not taken in. *)
Lemma insert_and_charge_cases (sv : services) (u : Unique_impl) (ptr : key)
  (n rs : Z) :
  let res := fst (tree_insert (node_alloc_ok sv) (tree u) ptr n) in
  let r := fst (insert_and_charge sv u ptr n rs) in
  let u' := snd (insert_and_charge sv u ptr n rs) in
  r = Tree.is_null res /\
  ((is_duplicate u ptr = true /\ r = false /\
    Tree.elements_in_tree (tree u') = Tree.elements_in_tree (tree u) /\
    length (Tree.nodes (tree u')) = length (Tree.nodes (tree u)) /\
    memory_used u' = memory_used u)
   \/ (is_duplicate u ptr = false /\
       Z.land (Tree.flag (tree u)) TREE_ONLY_DUPS = 0 /\
       node_alloc_ok sv = true /\ r = false /\
       Tree.elements_in_tree (tree u')
         = wrap32 (Tree.elements_in_tree (tree u) + 1) /\
       Tree.nodes (tree u') =
         Tree.place (Tree.compare (tree u)) ptr
           (Tree.mkElement (firstn (Z.to_nat n) ptr) 1)
           (Tree.nodes (tree u)) /\
       memory_used u' = wrap64 (memory_used u + rs))
   \/ (is_duplicate u ptr = false /\
       (Z.land (Tree.flag (tree u)) TREE_ONLY_DUPS <> 0
        \/ node_alloc_ok sv = false) /\
       (r = true <->
        Z.land (Tree.flag (tree u)) TREE_ONLY_DUPS = 0
        /\ node_alloc_ok sv = false) /\
       tree u' = tree u /\
       memory_used u' = memory_used u)).
Proof.
  unfold insert_and_charge, is_duplicate.
  pose proof (tree_insert_cases (node_alloc_ok sv) (tree u) ptr n) as C.
  destruct (tree_insert (node_alloc_ok sv) (tree u) ptr n) as [res t].
  simpl in C. simpl. split; [reflexivity |].
  destruct C as [(e & Hs & Hres & Hn & Hlen)
                | [(Hs & Hf & Hok & Hres & Hn & Hnodes)
                  | (Hs & Hwhy & Hnull & Hres & Ht)]].
  - left. rewrite Hs, Hres, Hn, Z.eqb_refl. simpl. auto.
  - right; left. rewrite Hs, Hres, Hn. simpl.
    destruct (Z.eqb_spec (wrap32 (Tree.elements_in_tree (tree u) + 1))
                (Tree.elements_in_tree (tree u))) as [E | _].
    + exfalso. exact (wrap32_succ_neq _ E).
    + simpl. auto 10.
  - right; right. subst t. rewrite Hs, Z.eqb_refl. simpl.
    split; [reflexivity |]. split; [exact Hwhy |].
    split; [| split; reflexivity].
    split.
    + intros Hr. apply Hnull. destruct res; simpl in Hr; congruence.
    + intros Hr. apply Hnull in Hr. rewrite Hr. reflexivity.
Qed.

(** C8. [unique_add] returns failure exactly when the flush it triggered
    fails or when [tree_insert] returns null, which is a failed allocation
    of the node; when the key matches an entry or is linked in as a new
    one, it returns success. *)
Theorem unique_add_failure_condition (sv : services) (u : Unique_impl)
  (ptr : key) (size_arg : Z) :
  space_left_safe u ->
  let full := budget_exceeded u (rec_size u size_arg) in
  let flush_failed := full && fst (flush sv u) in
  let u1 := if full then snd (flush sv u) else u in
  let res := fst (tree_insert (node_alloc_ok sv) (tree u1) ptr size_arg) in
  exists r u',
    unique_add sv u ptr size_arg = Done (r, u') /\
    (r = true <->
     flush_failed = true \/ (flush_failed = false /\ res = Tree.Null)) /\
    (flush_failed = false -> res = Tree.Null -> node_alloc_ok sv = false) /\
    (flush_failed = false -> is_duplicate u1 ptr = true -> r = false) /\
    (flush_failed = false -> forall e, res = Tree.Element e -> r = false).
Proof.
  intros Hsafe full flush_failed u1 res.
  rewrite (unique_add_unfold sv u ptr size_arg full)
    by (apply must_flush_safe; exact Hsafe).
  fold flush_failed. fold u1.
  destruct flush_failed eqn:Hff.
  - exists true, (snd (flush sv u)). split; [reflexivity |].
    split; [split; [intros _; left; reflexivity | intros _; reflexivity] |].
    repeat split; intros; discriminate.
  - pose proof (insert_and_charge_cases sv u1 ptr size_arg
                  (rec_size u size_arg)) as C.
    simpl in C. fold res in C. destruct C as (Hr & C).
    exists (fst (insert_and_charge sv u1 ptr size_arg (rec_size u size_arg))),
           (snd (insert_and_charge sv u1 ptr size_arg (rec_size u size_arg))).
    split; [rewrite <- surjective_pairing; reflexivity |].
    rewrite Hr. repeat split.
    + intros H. right. split; [reflexivity |].
      destruct res; simpl in H; congruence.
    + intros [H | [_ H]]; [discriminate | rewrite H; reflexivity].
    + intros _ Hnull. rewrite Hnull in Hr.
      destruct C as [(_ & Hr' & _) | [(_ & _ & _ & Hr' & _)
                                     | (_ & _ & Hiff & _)]].
      * rewrite Hr' in Hr. discriminate.
      * rewrite Hr' in Hr. discriminate.
      * apply Hiff. exact Hr.
    + intros _ Hdup.
      destruct C as [(_ & Hr' & _) | [(Hnd & _) | (Hnd & _)]];
        [congruence | congruence | congruence].
    + intros _ e He. rewrite He. reflexivity.
Qed.

(** ** After [close_for_expansion] *)

(** One call on a tree in [TREE_ONLY_DUPS] mode: no assertion is reached,
    nothing is written, the tree neither grows nor is charged. *)
Lemma unique_add_only_dups (sv : services) (u : Unique_impl) (ptr : key)
  (n : Z) :
  Z.land (Tree.flag (tree u)) TREE_ONLY_DUPS <> 0 ->
  exists r u',
    unique_add sv u ptr n = Done (r, u') /\
    r = false /\
    file u' = file u /\ file_ptrs u' = file_ptrs u /\
    elements u' = elements u /\
    Tree.flag (tree u') = Tree.flag (tree u) /\
    Tree.elements_in_tree (tree u') = Tree.elements_in_tree (tree u) /\
    memory_used u' = memory_used u.
Proof.
  intros Hflag.
  rewrite (unique_add_unfold sv u ptr n false)
    by (apply must_flush_only_dups; exact Hflag).
  simpl.
  pose proof (insert_and_charge_frame sv u ptr n (rec_size u n)) as F.
  pose proof (insert_and_charge_cases sv u ptr n (rec_size u n)) as C.
  destruct (insert_and_charge sv u ptr n (rec_size u n)) as [r u'].
  simpl in F, C. destruct F as (Ffile & Fptrs & Fel & _ & Fflag & _).
  destruct C as (_ & C).
  exists r, u'. split; [reflexivity |].
  destruct C as [(_ & Hr & Hn & _ & Hm)
                | [(_ & Hclear & _) | (_ & _ & Hiff & Ht & Hm)]].
  - auto 10.
  - contradiction.
  - assert (r = false).
    { destruct r; [| reflexivity].
      destruct Hiff as [Hiff _]. destruct (Hiff eq_refl). contradiction. }
    rewrite Ht. auto 10.
Qed.

(** C9. After [close_for_expansion] has put the tree into
    [TREE_ONLY_DUPS] mode, no series of [unique_add] calls reaches a state
    in which the guard asks for a flush, whatever is charged and whatever
    the budget: every call completes (no assertion is evaluated), and the
    spill file, the run directory and the counter of flushed entries stay
    as they were. *)
Theorem no_spill_after_close_for_expansion (u : Unique_impl)
  (cs : list call) :
  TREE_ONLY_DUPS <> 0 ->
  exists u',
    unique_add_all cs (close_for_expansion u) = Done u' /\
    (forall record_size, must_flush u' record_size = Done false) /\
    Tree.flag (tree u') = TREE_ONLY_DUPS /\
    file u' = file u /\ file_ptrs u' = file_ptrs u /\
    elements u' = elements u /\
    memory_used u' = memory_used u.
Proof.
  intros Hbit.
  assert (Hgen : forall cs v,
             Tree.flag (tree v) = TREE_ONLY_DUPS ->
             exists v',
               unique_add_all cs v = Done v' /\
               Tree.flag (tree v') = TREE_ONLY_DUPS /\
               file v' = file v /\ file_ptrs v' = file_ptrs v /\
               elements v' = elements v /\
               memory_used v' = memory_used v).
  { clear cs. induction cs as [| c cs IH]; intros v Hv.
    - exists v. simpl. auto 10.
    - assert (Hland : Z.land (Tree.flag (tree v)) TREE_ONLY_DUPS <> 0)
        by (rewrite Hv, Z.land_diag; exact Hbit).
      destruct (unique_add_only_dups (call_services c) v (call_ptr c)
                  (call_size c) Hland)
        as (r & v1 & Hrun & _ & Hf & Hp & He & Hfl & _ & Hm).
      destruct (IH v1) as (v' & Hall & Hfl' & Hf' & Hp' & He' & Hm').
      { rewrite Hfl. exact Hv. }
      exists v'. simpl. rewrite Hrun. simpl.
      split; [exact Hall |].
      split; [exact Hfl' |].
      repeat split; congruence. }
  destruct (Hgen cs (close_for_expansion u) eq_refl)
    as (u' & Hall & Hfl & Hf & Hp & He & Hm).
  exists u'. split; [exact Hall |].
  split.
  - intros rs. apply must_flush_only_dups.
    rewrite Hfl, Z.land_diag. exact Hbit.
  - simpl in Hf, Hp, He, Hm. auto 10.
Qed.

(** ** Memory accounting *)

Lemma flush_succeeds (sv : services) (u : Unique_impl) :
  fst (flush sv u) = false ->
  spill_write_ok sv = true /\ directory_alloc_ok sv = true /\
  snd (flush sv u) = run_completed u (my_b_append (file u) (run_image u)).
Proof.
  unfold flush.
  destruct (spill_write_ok sv); simpl; [| discriminate].
  destruct (directory_alloc_ok sv); simpl; [auto | discriminate].
Qed.

Lemma flush_fails (sv : services) (u : Unique_impl) :
  fst (flush sv u) = true ->
  let u' := snd (flush sv u) in
  tree u' = tree u /\ memory_used u' = memory_used u /\
  file_ptrs u' = file_ptrs u /\ elements u' = elements u /\
  max_in_memory_size u' = max_in_memory_size u.
Proof.
  unfold flush.
  destruct (spill_write_ok sv); simpl; [| auto 10].
  destruct (directory_alloc_ok sv); simpl; [discriminate | auto 10].
Qed.

(** C3, amended. The record is charged exactly when [tree_insert] makes
    the tree grow, measured from the state in which [tree_insert] runs,
    that is after the flush the call may have triggered (which leaves
    nothing charged): [memory_used] then becomes the old value plus
    [rec_size], and otherwise keeps its value.  The tree grows exactly for
    a key that matches no entry, in a tree that is not in
    [TREE_ONLY_DUPS] mode, when the node can be allocated.  So a key that
    matches an entry leaves [memory_used] unchanged whenever the call
    triggers no flush. *)
Theorem unique_add_charges_new_entries (sv : services) (u : Unique_impl)
  (ptr : key) (size_arg : Z) :
  space_left_safe u ->
  let rs := rec_size u size_arg in
  let full := budget_exceeded u rs in
  let u1 := if full then snd (flush sv u) else u in
  full && fst (flush sv u) = false ->
  exists r u',
    unique_add sv u ptr size_arg = Done (r, u') /\
    (memory_used u' =
       if Tree.elements_in_tree (tree u') =? Tree.elements_in_tree (tree u1)
       then memory_used u1
       else wrap64 (memory_used u1 + rs)) /\
    (Tree.elements_in_tree (tree u') <> Tree.elements_in_tree (tree u1) <->
     is_duplicate u1 ptr = false /\
     Z.land (Tree.flag (tree u1)) TREE_ONLY_DUPS = 0 /\
     node_alloc_ok sv = true) /\
    (is_duplicate u1 ptr = true -> memory_used u' = memory_used u1) /\
    (full = false -> is_duplicate u ptr = true ->
     memory_used u' = memory_used u) /\
    (full = true -> memory_used u1 = 0).
Proof.
  intros Hsafe rs full u1 Hnofail.
  rewrite (unique_add_unfold sv u ptr size_arg full)
    by (apply must_flush_safe; exact Hsafe).
  rewrite Hnofail. fold u1. fold rs.
  pose proof (insert_and_charge_cases sv u1 ptr size_arg rs) as C.
  destruct (insert_and_charge sv u1 ptr size_arg rs) as [r u'].
  simpl in C. destruct C as (_ & C).
  exists r, u'. split; [reflexivity |].
  assert (Hflushed : full = true -> memory_used u1 = 0).
  { intros Hfull. subst u1. rewrite Hfull in *. simpl in Hnofail.
    destruct (flush_succeeds sv u Hnofail) as (_ & _ & E).
    rewrite E. reflexivity. }
  destruct C as [(Hd & _ & Hn & _ & Hm)
                | [(Hd & Hclear & Hok & _ & Hn & _ & Hm)
                  | (Hd & Hwhy & _ & Ht & Hm)]].
  - rewrite Hn, Z.eqb_refl.
    split; [exact Hm |].
    split; [split; [congruence | intros (E & _); congruence] |].
    split; [intros _; exact Hm |].
    split; [| exact Hflushed].
    intros Hfull _. subst u1. rewrite Hfull in Hm. exact Hm.
  - assert (Hneq : Tree.elements_in_tree (tree u')
                   <> Tree.elements_in_tree (tree u1))
      by (rewrite Hn; apply wrap32_succ_neq).
    destruct (Z.eqb_spec (Tree.elements_in_tree (tree u'))
                (Tree.elements_in_tree (tree u1))) as [E | _];
      [contradiction |].
    split; [exact Hm |].
    split; [split; [intros _; auto | intros _; exact Hneq] |].
    split; [intros E; congruence |].
    split; [| exact Hflushed].
    intros Hfull E. subst u1. rewrite Hfull in Hd. congruence.
  - rewrite Ht, Z.eqb_refl.
    split; [exact Hm |].
    split.
    { split; [congruence |].
      intros (_ & Hclear & Hok). destruct Hwhy; congruence. }
    split; [intros _; exact Hm |].
    split; [| exact Hflushed].
    intros Hfull E. subst u1. rewrite Hfull in Hd. congruence.
Qed.

(** ** The budget *)

Lemma place_length (cmp : key -> key -> Z) (k : key)
  (e : Tree.TREE_ELEMENT) (l : list Tree.TREE_ELEMENT) :
  length (Tree.place cmp k e l) = S (length l).
Proof.
  induction l as [| x l IH]; simpl; [reflexivity |].
  destruct (cmp (Tree.element_key x) k <? 0); simpl;
    [rewrite IH |]; reflexivity.
Qed.

Lemma counted_nonempty (t : Tree.TREE) :
  counted t -> Tree.elements_in_tree t <> 0 -> Tree.nodes t <> [].
Proof.
  unfold counted. intros Hc Hn Hnil. apply Hn.
  rewrite Hc, Hnil. reflexivity.
Qed.

(** The insertion step keeps the budget when the record fits into what is
    left of it. *)
Lemma insert_and_charge_keeps_budget (sv : services) (u : Unique_impl)
  (ptr : key) (n rs : Z) :
  within_budget u -> counted (tree u) ->
  Z.of_nat (length (Tree.nodes (tree u))) + 1 < 2 ^ 32 ->
  max_in_memory_size u < 2 ^ 64 ->
  0 <= rs ->
  (Z.land (Tree.flag (tree u)) TREE_ONLY_DUPS = 0 ->
   memory_used u + rs <= max_in_memory_size u) ->
  let u' := snd (insert_and_charge sv u ptr n rs) in
  within_budget u' /\ counted (tree u') /\
  (length (Tree.nodes (tree u')) <= S (length (Tree.nodes (tree u))))%nat.
Proof.
  intros (Hmem & Hzero) Hc Hlen Hmax Hrs Hroom.
  pose proof (insert_and_charge_frame sv u ptr n rs) as F.
  pose proof (insert_and_charge_cases sv u ptr n rs) as C.
  destruct (insert_and_charge sv u ptr n rs) as [r u'].
  simpl in F, C. simpl.
  destruct F as (_ & _ & _ & Fmax & _).
  destruct C as (_ & C).
  unfold within_budget, counted in *. rewrite Fmax.
  destruct C as [(_ & _ & Hn & Hl & Hm)
                | [(_ & Hclear & _ & _ & Hn & Hnodes & Hm)
                  | (_ & _ & _ & Ht & Hm)]].
  - rewrite Hn, Hl, Hm. repeat split; try lia; auto.
  - specialize (Hroom Hclear).
    rewrite Hn, Hnodes, place_length, Hm.
    rewrite Hc.
    rewrite (wrap32_small (Z.of_nat (length (Tree.nodes (tree u))))) by lia.
    rewrite wrap64_small by lia.
    repeat split; try lia.
    + intros E. rewrite wrap32_small in E by lia. lia.
    + f_equal. lia.
  - rewrite Ht, Hm. repeat split; try lia; auto.
Qed.

(** One call keeps the budget when its record fits the budget on its own:
    the guard sees to it that the record fits into what is left, flushing
    the tree if it does not. *)
Lemma unique_add_keeps_budget (sv : services) (u : Unique_impl) (ptr : key)
  (n : Z) :
  within_budget u -> counted (tree u) ->
  Z.of_nat (length (Tree.nodes (tree u))) + 1 < 2 ^ 32 ->
  max_in_memory_size u < 2 ^ 64 ->
  rec_size u n <= max_in_memory_size u ->
  exists r u',
    unique_add sv u ptr n = Done (r, u') /\
    within_budget u' /\ counted (tree u') /\
    (length (Tree.nodes (tree u')) <= S (length (Tree.nodes (tree u))))%nat /\
    max_in_memory_size u' = max_in_memory_size u /\
    Tree.size_of_element (tree u') = Tree.size_of_element (tree u).
Proof.
  intros Hb Hc Hlen Hmax Hfit.
  assert (Hsafe : space_left_safe u)
    by (right; destruct Hb as ((_ & H) & _); exact H).
  pose proof (wrap64_range
                (wrap64 (n + sizeof_TREE_ELEMENT)
                 + Tree.size_of_element (tree u))) as Hrs.
  fold (rec_size u n) in Hrs.
  rewrite (unique_add_unfold sv u ptr n _ (must_flush_safe u _ Hsafe)).
  destruct (budget_exceeded u (rec_size u n)) eqn:Hfull; simpl.
  - destruct (fst (flush sv u)) eqn:Hflush.
    + destruct (flush_fails sv u Hflush) as (Ht & Hm & _ & _ & Hmx).
      exists true, (snd (flush sv u)). split; [reflexivity |].
      destruct Hb as ((Hlo & Hhi) & Hzero).
      unfold within_budget, counted in *. rewrite Ht, Hm, Hmx.
      repeat split; auto.
    + destruct (flush_succeeds sv u Hflush) as (_ & _ & E). rewrite E.
      set (u1 := run_completed u (my_b_append (file u) (run_image u))).
      assert (H1 : within_budget u1)
        by (unfold within_budget; simpl; destruct Hb; lia).
      assert (Hc1 : counted (tree u1)) by reflexivity.
      pose proof (insert_and_charge_keeps_budget sv u1 ptr n (rec_size u n)
                    H1 Hc1 ltac:(simpl; lia) Hmax ltac:(lia)
                    ltac:(intros _; simpl; lia)) as K.
      pose proof (insert_and_charge_frame sv u1 ptr n (rec_size u n)) as F.
      destruct (insert_and_charge sv u1 ptr n (rec_size u n)) as [r u'].
      simpl in K, F. destruct K as (K1 & K2 & K3).
      destruct F as (_ & _ & _ & Fmax & _ & Fsize).
      exists r, u'. split; [reflexivity |].
      simpl in K3. repeat split; try apply K1; auto; lia.
  - assert (Hroom : Z.land (Tree.flag (tree u)) TREE_ONLY_DUPS = 0 ->
                    memory_used u + rec_size u n <= max_in_memory_size u).
    { intros Ef. destruct Hb as (Hmem & Hzero).
      unfold budget_exceeded in Hfull. rewrite Ef in Hfull. simpl in Hfull.
      destruct (Z.eqb_spec (Tree.elements_in_tree (tree u)) 0) as [E | E].
      - rewrite (Hzero E). lia.
      - simpl in Hfull. rewrite wrap64_small in Hfull by lia.
        destruct (Z.gtb_spec (rec_size u n)
                    (max_in_memory_size u - memory_used u));
          [discriminate | lia]. }
    pose proof (insert_and_charge_keeps_budget sv u ptr n (rec_size u n)
                  Hb Hc Hlen Hmax ltac:(lia) Hroom) as K.
    pose proof (insert_and_charge_frame sv u ptr n (rec_size u n)) as F.
    destruct (insert_and_charge sv u ptr n (rec_size u n)) as [r u'].
    simpl in K, F. destruct K as (K1 & K2 & K3).
    destruct F as (_ & _ & _ & Fmax & _ & Fsize).
    exists r, u'. split; [reflexivity |].
    repeat split; try apply K1; auto.
Qed.

Lemma fits_frame (u u' : Unique_impl) (c : call) :
  max_in_memory_size u' = max_in_memory_size u ->
  Tree.size_of_element (tree u') = Tree.size_of_element (tree u) ->
  fits u' c = fits u c.
Proof.
  intros Hmax Hsize. unfold fits, rec_size. rewrite Hmax, Hsize.
  reflexivity.
Qed.

(** A series of calls keeps the budget when the record of each call fits
    the budget on its own. *)
Lemma unique_add_all_keeps_budget (cs : list call) :
  forall u : Unique_impl,
    within_budget u -> counted (tree u) ->
    Z.of_nat (length (Tree.nodes (tree u))) + Z.of_nat (length cs) < 2 ^ 32 ->
    max_in_memory_size u < 2 ^ 64 ->
    forallb (fits u) cs = true ->
    exists u',
      unique_add_all cs u = Done u' /\
      within_budget u' /\ counted (tree u') /\
      max_in_memory_size u' = max_in_memory_size u /\
      Tree.size_of_element (tree u') = Tree.size_of_element (tree u).
Proof.
  induction cs as [| c cs IH]; intros u Hb Hc Hlen Hmax Hfits.
  - exists u. simpl. auto.
  - simpl in Hfits. apply andb_true_iff in Hfits.
    destruct Hfits as (Hfit & Hfits).
    simpl length in Hlen.
    destruct (unique_add_keeps_budget (call_services c) u (call_ptr c)
                (call_size c) Hb Hc ltac:(lia) Hmax
                ltac:(apply Z.leb_le; exact Hfit))
      as (r & u1 & Hrun & Hb1 & Hc1 & Hl1 & Hmax1 & Hsize1).
    destruct (IH u1 Hb1 Hc1) as (u' & Hall & Hb' & Hc' & Hmax' & Hsize').
    + lia.
    + lia.
    + rewrite <- Hfits. clear - Hmax1 Hsize1.
      induction cs as [| c' cs IHcs]; simpl; [reflexivity |].
      rewrite IHcs. f_equal. apply fits_frame; assumption.
    + exists u'. simpl. rewrite Hrun. simpl.
      split; [exact Hall |].
      repeat split; try apply Hb'; auto; congruence.
Qed.

(** ** Flushing before inserting *)

Lemma budget_exceeded_iff (u : Unique_impl) (rs : Z) :
  budget_exceeded u rs = true <->
  Z.land (Tree.flag (tree u)) TREE_ONLY_DUPS = 0 /\
  Tree.elements_in_tree (tree u) <> 0 /\
  wrap64 (max_in_memory_size u - memory_used u) < rs.
Proof.
  unfold budget_exceeded.
  rewrite !andb_true_iff, negb_true_iff, Z.eqb_eq, Z.eqb_neq, Z.gtb_gt.
  lia.
Qed.

(** A call that finds the budget exceeded writes the tree as it is to the
    spill file and clears it, and only then inserts the key; a call that
    does not leaves the file alone. *)
Lemma unique_add_guarded_flush (sv : services) (u : Unique_impl)
  (ptr : key) (size_arg : Z) :
  space_left_safe u ->
  let rs := rec_size u size_arg in
  (budget_exceeded u rs = false ->
   unique_add sv u ptr size_arg
     = Done (insert_and_charge sv u ptr size_arg rs) /\
   file (snd (insert_and_charge sv u ptr size_arg rs)) = file u) /\
  (budget_exceeded u rs = true ->
   (fst (flush sv u) = true ->
    unique_add sv u ptr size_arg = Done (true, snd (flush sv u)) /\
    tree (snd (flush sv u)) = tree u) /\
   (fst (flush sv u) = false ->
    let u1 := snd (flush sv u) in
    file_data (file u1) = file_data (file u) ++ run_image u /\
    file_ptrs u1 = file_ptrs u ++ [my_b_tell (file u)] /\
    Tree.nodes (tree u1) = [] /\ memory_used u1 = 0 /\
    unique_add sv u ptr size_arg
      = Done (insert_and_charge sv u1 ptr size_arg rs))).
Proof.
  intros Hsafe rs.
  pose proof (unique_add_unfold sv u ptr size_arg _
                (must_flush_safe u rs Hsafe)) as Hrun.
  fold rs in Hrun.
  split; intros Hfull; rewrite Hfull in Hrun; simpl in Hrun.
  - split; [exact Hrun |].
    apply (insert_and_charge_frame sv u ptr size_arg rs).
  - split; intros Hflush; rewrite Hflush in Hrun.
    + split; [exact Hrun |]. apply (flush_fails sv u Hflush).
    + destruct (flush_succeeds sv u Hflush) as (_ & _ & E).
      cbv zeta. rewrite E in *. simpl. auto.
Qed.

(** C2, amended. In a tree that is not in [TREE_ONLY_DUPS] mode, a call of
    [unique_add] that finds at least one element and a record larger than
    [space_left] flushes the tree to the spill file before it inserts the
    key.  The run so written is not empty, and in an engine that has only
    been given records that fit the budget it was accumulated within the
    budget. *)
Theorem flush_before_insert (u0 : Unique_impl) (cs : list call)
  (sv : services) (ptr : key) (size_arg : Z) :
  within_budget u0 -> counted (tree u0) ->
  Z.of_nat (length (Tree.nodes (tree u0))) + Z.of_nat (length cs) < 2 ^ 32 ->
  max_in_memory_size u0 < 2 ^ 64 ->
  forallb (fits u0) cs = true ->
  exists u,
    unique_add_all cs u0 = Done u /\
    let rs := rec_size u size_arg in
    (budget_exceeded u rs = true <->
     Z.land (Tree.flag (tree u)) TREE_ONLY_DUPS = 0 /\
     Tree.elements_in_tree (tree u) <> 0 /\
     wrap64 (max_in_memory_size u - memory_used u) < rs) /\
    space_left u = Done (max_in_memory_size u - memory_used u) /\
    (budget_exceeded u rs = false ->
     unique_add sv u ptr size_arg
       = Done (insert_and_charge sv u ptr size_arg rs) /\
     file (snd (insert_and_charge sv u ptr size_arg rs)) = file u) /\
    (budget_exceeded u rs = true ->
     Tree.nodes (tree u) <> [] /\
     memory_used u <= max_in_memory_size u /\
     (fst (flush sv u) = true ->
      unique_add sv u ptr size_arg = Done (true, snd (flush sv u)) /\
      tree (snd (flush sv u)) = tree u) /\
     (fst (flush sv u) = false ->
      let u1 := snd (flush sv u) in
      file_data (file u1) = file_data (file u) ++ run_image u /\
      file_ptrs u1 = file_ptrs u ++ [my_b_tell (file u)] /\
      Tree.nodes (tree u1) = [] /\ memory_used u1 = 0 /\
      unique_add sv u ptr size_arg
        = Done (insert_and_charge sv u1 ptr size_arg rs))).
Proof.
  intros Hb0 Hc0 Hlen Hmax Hfits.
  destruct (unique_add_all_keeps_budget cs u0 Hb0 Hc0 Hlen Hmax Hfits)
    as (u & Hall & Hb & Hc & Hmax' & _).
  exists u. split; [exact Hall |]. cbv zeta.
  assert (Hle : 0 <= memory_used u <= max_in_memory_size u)
    by (destruct Hb as (H & _); exact H).
  assert (Hsafe : space_left_safe u) by (right; lia).
  pose proof (unique_add_guarded_flush sv u ptr size_arg Hsafe) as G.
  cbv zeta in G. destruct G as (Gno & Gyes).
  split; [apply budget_exceeded_iff |].
  split.
  { unfold space_left, DBUG_ASSERT.
    destruct DBUG_OFF; simpl.
    - rewrite wrap64_small by lia. reflexivity.
    - destruct (Z.geb_spec (max_in_memory_size u) (memory_used u));
        [| lia].
      simpl. rewrite wrap64_small by lia. reflexivity. }
  split; [exact Gno |].
  intros Hfull. specialize (Gyes Hfull).
  split.
  { apply counted_nonempty; [exact Hc |].
    exact (proj1 (proj2 (proj1 (budget_exceeded_iff u _) Hfull))). }
  split; [lia |].
  exact Gyes.
Qed.

(** * Further properties of the header *)

(** ** Packed lengths at the edges *)

(** X1. [read_packed_length] after [store_packed_length] returns the size
    that was stored for every [uint] size, also below the width of the
    prefix: for [sz < 4] the difference [sz - 4] wraps around to
    [2^32 - 4 + sz] in the prefix, and the sum wraps back. *)
Theorem stored_length_reads_back_any_size (p : key) (sz : Z) :
  0 <= sz < 2 ^ 32 ->
  Variable_size_keys.read_packed_length
    (Variable_size_keys.store_packed_length p sz) = sz /\
  (sz < 4 ->
   uint4korr (Variable_size_keys.store_packed_length p sz)
     = 2 ^ 32 - 4 + sz).
Proof.
  intros Hsz.
  unfold Variable_size_keys.read_packed_length,
    Variable_size_keys.store_packed_length,
    Variable_size_keys.size_of_length_field.
  rewrite uint4korr_int4store.
  assert (Hidem : wrap32 (wrap32 (sz - 4)) = wrap32 (sz - 4))
    by (apply wrap32_small, wrap32_range).
  rewrite Hidem. split.
  - unfold wrap32. rewrite Z.add_mod_idemp_r by lia.
    replace (4 + (sz - 4)) with sz by lia.
    apply Z.mod_small. exact Hsz.
  - intros Hlt. unfold wrap32.
    replace (sz - 4) with (2 ^ 32 - 4 + sz + (-1) * 2 ^ 32) by lia.
    rewrite Z.mod_add by lia.
    apply Z.mod_small. lia.
Qed.

(** X2. [store_packed_length] writes the 4-byte prefix and nothing else:
    on a buffer of at least four bytes the result is the one buffer of the
    same length and with the same payload whose prefix reads [sz - 4] as a
    [uint]; so a second store replaces the first. *)
Theorem store_packed_length_writes_prefix_only (p q : key) (a b : Z) :
  (4 <= length p)%nat ->
  (Variable_size_keys.store_packed_length p a = q <->
   length q = length p /\ skipn 4 q = skipn 4 p /\
   uint4korr q = wrap32 (a - Variable_size_keys.size_of_length_field)) /\
  Variable_size_keys.store_packed_length
    (Variable_size_keys.store_packed_length p a) b
    = Variable_size_keys.store_packed_length p b.
Proof.
  intros Hlen.
  unfold Variable_size_keys.store_packed_length,
    Variable_size_keys.size_of_length_field.
  split.
  - split.
    + intros <-.
      rewrite int4store_keeps_payload, uint4korr_int4store.
      split; [| split; [reflexivity |]].
      * unfold int4store.
        rewrite length_app, length_le_split, length_skipn. lia.
      * apply wrap32_small, wrap32_range.
    + intros (Hl & Hpay & Hpre).
      unfold int4store. rewrite <- Hpay, <- Hpre. unfold uint4korr.
      assert (H4 : length (firstn 4 q) = 4%nat)
        by (rewrite length_firstn; lia).
      rewrite <- H4 at 1. rewrite split_le_combine.
      apply firstn_skipn.
  - unfold int4store at 1. rewrite int4store_keeps_payload. reflexivity.
Qed.

(** X3. [read_packed_length] looks at the first four bytes only and returns
    a [uint]; it is 4 plus the prefix exactly when the prefix is below
    [2^32 - 4], and then it is at least 4. *)
Theorem read_packed_length_exact_iff (p q : key) :
  (firstn 4 p = firstn 4 q ->
   Variable_size_keys.read_packed_length p
     = Variable_size_keys.read_packed_length q) /\
  0 <= Variable_size_keys.read_packed_length p < 2 ^ 32 /\
  (Variable_size_keys.read_packed_length p
     = Variable_size_keys.size_of_length_field + uint4korr p
   <-> uint4korr p < 2 ^ 32 - 4) /\
  (uint4korr p < 2 ^ 32 - 4 ->
   4 <= Variable_size_keys.read_packed_length p).
Proof.
  unfold Variable_size_keys.read_packed_length,
    Variable_size_keys.size_of_length_field.
  pose proof (uint4korr_range p) as R.
  split; [| split; [| split]].
  - intros E. unfold uint4korr. rewrite E. reflexivity.
  - apply wrap32_range.
  - split.
    + intros E. pose proof (wrap32_range (4 + uint4korr p)) as W.
      rewrite E in W. lia.
    + intros H. apply wrap32_small. lia.
  - intros H. rewrite wrap32_small by lia. lia.
Qed.

(** X4. With a variable-size descriptor, [unique_add(ptr)] on a buffer that
    [store_packed_length] has stamped with the size [sz] is
    [unique_add(ptr, sz)]. *)
Theorem unique_add_ptr_packed_key (sv : services) (u : Unique_impl)
  (kl fl : Z) (rec_ptr p : key) (sz : Z) :
  m_descriptor u = Variable_size_keys_descriptor kl fl rec_ptr ->
  0 <= sz < 2 ^ 32 ->
  unique_add_ptr sv u (Variable_size_keys.store_packed_length p sz)
    = unique_add sv u (Variable_size_keys.store_packed_length p sz) sz.
Proof.
  intros Hd Hsz. unfold unique_add_ptr. rewrite Hd. simpl.
  f_equal.
  unfold Variable_size_keys.read_packed_length,
    Variable_size_keys.store_packed_length,
    Variable_size_keys.size_of_length_field.
  rewrite uint4korr_int4store.
  rewrite (wrap32_small (wrap32 (sz - 4))) by apply wrap32_range.
  unfold wrap32. rewrite Z.add_mod_idemp_r by lia.
  replace (4 + (sz - 4)) with sz by lia.
  apply Z.mod_small. exact Hsz.
Qed.

(** X5. [is_variable_sized] is bit 1 of [flags], whatever the other bits
    are. *)
Theorem is_variable_sized_bit (d : Descriptor) :
  is_variable_sized d = Z.testbit (flags d) 1.
Proof.
  unfold is_variable_sized, VARIABLE_SIZED_KEYS_WITH_ORIGINAL_VALUES.
  change (Z.shiftl 1 1) with (2 ^ 1).
  destruct (Z.testbit (flags d) 1) eqn:Hb.
  - destruct (Z.eqb_spec (Z.land (flags d) (2 ^ 1)) 0) as [E | _];
      [| reflexivity].
    exfalso.
    assert (Hbit : Z.testbit (Z.land (flags d) (2 ^ 1)) 1 = true)
      by (rewrite Z.land_spec, Hb, Z.pow2_bits_true by lia; reflexivity).
    rewrite E, Z.bits_0 in Hbit. discriminate.
  - destruct (Z.eqb_spec (Z.land (flags d) (2 ^ 1)) 0) as [_ | N];
      [reflexivity |].
    exfalso. apply N. apply Z.bits_inj'. intros i Hi.
    rewrite Z.land_spec, Z.bits_0.
    destruct (Z.eq_dec i 1) as [-> | Hne].
    + rewrite Hb. reflexivity.
    + rewrite Z.pow2_bits_false by lia. apply andb_false_r.
Qed.


(** ** The guard of [unique_add] at its edges *)

(** X6. A call on an empty tree never flushes and never reaches the
    assertion, however large the record and whatever is left of the budget;
    when the tree takes new entries and the node can be allocated, the key
    becomes the only entry and its record is charged. *)
Theorem first_element_always_admitted (sv : services) (u : Unique_impl)
  (ptr : key) (n : Z) :
  Tree.elements_in_tree (tree u) = 0 ->
  let out := insert_and_charge sv u ptr n (rec_size u n) in
  unique_add sv u ptr n = Done out /\
  file (snd out) = file u /\ file_ptrs (snd out) = file_ptrs u /\
  elements (snd out) = elements u /\
  (Tree.nodes (tree u) = [] ->
   Z.land (Tree.flag (tree u)) TREE_ONLY_DUPS = 0 ->
   node_alloc_ok sv = true ->
   fst out = false /\
   Tree.nodes (tree (snd out))
     = [Tree.mkElement (firstn (Z.to_nat n) ptr) 1] /\
   Tree.elements_in_tree (tree (snd out)) = 1 /\
   memory_used (snd out) = wrap64 (memory_used u + rec_size u n)).
Proof.
  intros Hempty out.
  pose proof (insert_and_charge_frame sv u ptr n (rec_size u n)) as F.
  pose proof (insert_and_charge_cases sv u ptr n (rec_size u n)) as C.
  fold out in F, C. cbv zeta in F, C.
  destruct F as (Ffile & Fptrs & Fel & _).
  split.
  { rewrite (unique_add_unfold sv u ptr n false)
      by (apply must_flush_empty; exact Hempty).
    reflexivity. }
  split; [exact Ffile |]. split; [exact Fptrs |]. split; [exact Fel |].
  intros Hnil Hclear Hok.
  destruct C as (_ & [(Hdup & _) | [(_ & _ & _ & Hr & Hn & Hnodes & Hm)
                                   | (_ & [Hset | Hfail] & _)]]).
  - unfold is_duplicate in Hdup. rewrite Hnil in Hdup. discriminate.
  - rewrite Hnil in Hnodes. rewrite Hempty in Hn.
    split; [exact Hr |]. split; [exact Hnodes |].
    split; [exact Hn | exact Hm].
  - contradiction.
  - congruence.
Qed.

(** X7. [unique_add] stops at the assertion of [space_left] exactly in a
    build with assertions, on a tree that is not in [TREE_ONLY_DUPS] mode and
    holds an element, when more is charged than the budget; in every other
    case it returns. *)
Theorem unique_add_stops_at_assertion_iff (sv : services) (u : Unique_impl)
  (ptr : key) (n : Z) :
  unique_add sv u ptr n = Assertion_failed <->
  DBUG_OFF = false /\
  Z.land (Tree.flag (tree u)) TREE_ONLY_DUPS = 0 /\
  Tree.elements_in_tree (tree u) <> 0 /\
  max_in_memory_size u < memory_used u.
Proof.
  split.
  - intros Hstop.
    destruct (Z.eq_dec (Z.land (Tree.flag (tree u)) TREE_ONLY_DUPS) 0)
      as [Hflag | Hflag].
    2:{ destruct (unique_add_only_dups sv u ptr n Hflag) as (r & u' & E & _).
        congruence. }
    destruct (Z.eq_dec (Tree.elements_in_tree (tree u)) 0) as [Hn | Hn].
    { rewrite (unique_add_unfold sv u ptr n false) in Hstop
        by (apply must_flush_empty; exact Hn).
      discriminate. }
    assert (Hunsafe : ~ space_left_safe u).
    { intros Hsafe.
      rewrite (unique_add_unfold sv u ptr n _
                 (must_flush_safe u _ Hsafe)) in Hstop.
      destruct (budget_exceeded u (rec_size u n) && fst (flush sv u));
        discriminate. }
    unfold space_left_safe in Hunsafe.
    split; [destruct DBUG_OFF; [exfalso; apply Hunsafe; left |]; reflexivity |].
    split; [exact Hflag |]. split; [exact Hn |].
    destruct (Z_lt_le_dec (max_in_memory_size u) (memory_used u));
      [assumption | exfalso; apply Hunsafe; right; assumption].
  - intros (Hdbg & Hflag & Hn & Hover).
    unfold unique_add.
    rewrite (must_flush_assertion u _ Hdbg Hflag Hn Hover). reflexivity.
Qed.

(** X8. In a build without assertions, a tree that is charged more than the
    budget is not flushed by any record of at most
    [2^64 - (memory_used - max_in_memory_size)] bytes: the difference taken
    by [space_left] wraps around, and the key is inserted on top. *)
Theorem over_budget_tree_is_not_flushed (sv : services) (u : Unique_impl)
  (ptr : key) (n : Z) :
  DBUG_OFF = true ->
  0 <= max_in_memory_size u ->
  max_in_memory_size u < memory_used u ->
  memory_used u < 2 ^ 64 ->
  rec_size u n <= 2 ^ 64 - (memory_used u - max_in_memory_size u) ->
  space_left u
    = Done (2 ^ 64 - (memory_used u - max_in_memory_size u)) /\
  must_flush u (rec_size u n) = Done false /\
  unique_add sv u ptr n
    = Done (insert_and_charge sv u ptr n (rec_size u n)) /\
  file (snd (insert_and_charge sv u ptr n (rec_size u n))) = file u.
Proof.
  intros Hoff Hmax Hover Hmem Hrs.
  assert (Hwrap : wrap64 (max_in_memory_size u - memory_used u)
                  = 2 ^ 64 - (memory_used u - max_in_memory_size u)).
  { unfold wrap64. symmetry.
    apply (Z.mod_unique _ _ (-1)); lia. }
  assert (Hguard : must_flush u (rec_size u n) = Done false).
  { rewrite must_flush_safe by (left; exact Hoff).
    unfold budget_exceeded. rewrite Hwrap.
    destruct (Z.gtb_spec (rec_size u n)
                (2 ^ 64 - (memory_used u - max_in_memory_size u)));
      [lia |].
    rewrite andb_false_r. reflexivity. }
  split.
  { unfold space_left, DBUG_ASSERT. rewrite Hoff. unfold dbug_bind.
    rewrite Hwrap. reflexivity. }
  split; [exact Hguard |].
  split.
  - rewrite (unique_add_unfold sv u ptr n false Hguard). reflexivity.
  - apply (insert_and_charge_frame sv u ptr n (rec_size u n)).
Qed.

(** X9. Inside the budget the test of [is_full] means what its name says:
    on a tree that holds an element it answers whether the record would
    bring [memory_used] above [max_in_memory_size], in every build. *)
Theorem is_full_means_over_budget (u : Unique_impl) (rs : Z) :
  0 <= memory_used u <= max_in_memory_size u ->
  max_in_memory_size u < 2 ^ 64 ->
  Tree.elements_in_tree (tree u) <> 0 ->
  is_full u rs = Done (memory_used u + rs >? max_in_memory_size u).
Proof.
  intros Hmem Hmax Hn.
  unfold is_full, space_left, DBUG_ASSERT.
  destruct (Z.eqb_spec (Tree.elements_in_tree (tree u)) 0) as [E | _];
    [contradiction |].
  assert (Hge : (max_in_memory_size u >=? memory_used u) = true)
    by (destruct (Z.geb_spec (max_in_memory_size u) (memory_used u));
        [reflexivity | lia]).
  rewrite Hge, wrap64_small by lia.
  assert (Hsame : (rs >? max_in_memory_size u - memory_used u)
                  = (memory_used u + rs >? max_in_memory_size u)).
  { destruct (Z.gtb_spec rs (max_in_memory_size u - memory_used u));
      destruct (Z.gtb_spec (memory_used u + rs) (max_in_memory_size u));
      try reflexivity; lia. }
  destruct DBUG_OFF; simpl; rewrite Hsame; reflexivity.
Qed.

(** X10. As long as every record fits the budget on its own, a series of
    calls on an engine inside its budget ends inside the budget: at most
    [max_in_memory_size] is charged, nothing is charged to an empty tree,
    and [space_left] returns the true remainder in every build. *)
Theorem budget_respected_when_records_fit (cs : list call)
  (u : Unique_impl) :
  within_budget u -> counted (tree u) ->
  Z.of_nat (length (Tree.nodes (tree u))) + Z.of_nat (length cs) < 2 ^ 32 ->
  max_in_memory_size u < 2 ^ 64 ->
  forallb (fits u) cs = true ->
  exists u',
    unique_add_all cs u = Done u' /\
    0 <= memory_used u' <= max_in_memory_size u' /\
    (Tree.elements_in_tree (tree u') = 0 -> memory_used u' = 0) /\
    max_in_memory_size u' = max_in_memory_size u /\
    space_left u' = Done (max_in_memory_size u' - memory_used u').
Proof.
  intros Hb Hc Hlen Hmax Hfits.
  destruct (unique_add_all_keeps_budget cs u Hb Hc Hlen Hmax Hfits)
    as (u' & Hall & (Hmem & Hzero) & _ & Hmax' & _).
  exists u'. split; [exact Hall |].
  split; [exact Hmem |]. split; [exact Hzero |]. split; [exact Hmax' |].
  unfold space_left, DBUG_ASSERT.
  assert (Hge : (max_in_memory_size u' >=? memory_used u') = true)
    by (destruct (Z.geb_spec (max_in_memory_size u') (memory_used u'));
        [reflexivity | lia]).
  rewrite Hge, wrap64_small by lia.
  destruct DBUG_OFF; reflexivity.
Qed.


(** ** What is charged *)

Lemma charge_count_up (o : Z) (cmp : key -> key -> Z) (k : key)
  (l : list Tree.TREE_ELEMENT) :
  charge_of o (Tree.count_up cmp k l) = charge_of o l.
Proof.
  induction l as [| e l IH]; simpl; [reflexivity |].
  destruct (cmp (Tree.element_key e) k =? 0); [reflexivity |].
  destruct (cmp (Tree.element_key e) k <? 0); simpl;
    [rewrite IH |]; reflexivity.
Qed.

Lemma charge_place (o : Z) (cmp : key -> key -> Z) (k : key)
  (e : Tree.TREE_ELEMENT) (l : list Tree.TREE_ELEMENT) :
  charge_of o (Tree.place cmp k e l)
  = charge_of o l + (Z.of_nat (length (Tree.element_key e)) + o).
Proof.
  induction l as [| x l IH]; simpl; [lia |].
  destruct (cmp (Tree.element_key x) k <? 0); simpl;
    [rewrite IH |]; lia.
Qed.

(** The entries after [tree_insert] are charged what they were charged
    before, plus the new key when the tree has grown. *)
Lemma tree_insert_charge (ok : bool) (t : Tree.TREE) (k : key) (n o : Z) :
  0 <= n <= Z.of_nat (length k) ->
  let t' := snd (tree_insert ok t k n) in
  charge_of o (Tree.nodes t')
  = if Tree.elements_in_tree t' =? Tree.elements_in_tree t
    then charge_of o (Tree.nodes t)
    else charge_of o (Tree.nodes t) + (n + o).
Proof.
  intros Hn. unfold tree_insert.
  destruct (Tree.search (Tree.compare t) k (Tree.nodes t)).
  - simpl. rewrite Z.eqb_refl. apply charge_count_up.
  - destruct (negb (Z.land (Tree.flag t) TREE_ONLY_DUPS =? 0)).
    + simpl. rewrite Z.eqb_refl. reflexivity.
    + destruct ok; simpl.
      * destruct (Z.eqb_spec (wrap32 (Tree.elements_in_tree t + 1))
                    (Tree.elements_in_tree t)) as [E | _].
        { exfalso. exact (wrap32_succ_neq _ E). }
        rewrite charge_place. simpl.
        rewrite length_firstn, Nat.min_l by lia.
        rewrite Z2Nat.id by lia. reflexivity.
      * rewrite Z.eqb_refl. reflexivity.
Qed.

Lemma insert_and_charge_tree (sv : services) (u : Unique_impl) (ptr : key)
  (n rs : Z) :
  let u' := snd (insert_and_charge sv u ptr n rs) in
  tree u' = snd (tree_insert (node_alloc_ok sv) (tree u) ptr n) /\
  memory_used u'
  = if Tree.elements_in_tree (tree u') =? Tree.elements_in_tree (tree u)
    then memory_used u
    else wrap64 (memory_used u + rs).
Proof.
  unfold insert_and_charge.
  destruct (tree_insert (node_alloc_ok sv) (tree u) ptr n) as [res t].
  simpl.
  destruct (Tree.elements_in_tree t =? Tree.elements_in_tree (tree u)) eqn:E;
    simpl; rewrite E; auto.
Qed.

Lemma rec_size_wrap (u : Unique_impl) (n : Z) :
  rec_size u n
  = wrap64 (n + (sizeof_TREE_ELEMENT + Tree.size_of_element (tree u))).
Proof.
  unfold rec_size, wrap64.
  rewrite Z.add_mod_idemp_l by lia. f_equal. lia.
Qed.

(** One call keeps [memory_used] equal to the charge of the entries. *)
Lemma unique_add_charge_step (sv : services) (u : Unique_impl) (ptr : key)
  (n : Z) (r : bool) (u' : Unique_impl) :
  memory_used u = wrap64 (charged u) ->
  0 <= n <= Z.of_nat (length ptr) ->
  unique_add sv u ptr n = Done (r, u') ->
  memory_used u' = wrap64 (charged u').
Proof.
  intros Hinv Hn Hrun.
  destruct (must_flush u (rec_size u n)) as [full |] eqn:Hguard.
  2:{ unfold unique_add in Hrun. rewrite Hguard in Hrun. discriminate. }
  rewrite (unique_add_unfold sv u ptr n full Hguard) in Hrun.
  destruct (full && fst (flush sv u)) eqn:Hfail.
  - assert (Eu : u' = snd (flush sv u)) by congruence. subst u'.
    apply andb_true_iff in Hfail. destruct Hfail as (_ & Hfail).
    destruct (flush_fails sv u Hfail) as (Ht & Hm & _).
    unfold charged. rewrite Ht, Hm. exact Hinv.
  - set (u1 := if full then snd (flush sv u) else u) in *.
    assert (H1 : memory_used u1 = wrap64 (charged u1)
                 /\ Tree.size_of_element (tree u1)
                    = Tree.size_of_element (tree u)).
    { subst u1. destruct full; [| auto].
      simpl in Hfail. destruct (flush_succeeds sv u Hfail) as (_ & _ & E).
      rewrite E. split; reflexivity. }
    destruct H1 as (Hinv1 & Hsize1).
    pose proof (insert_and_charge_tree sv u1 ptr n (rec_size u n)) as T.
    assert (Eu : u' = snd (insert_and_charge sv u1 ptr n (rec_size u n)))
      by (injection Hrun as E; rewrite E; reflexivity).
    subst u'. clear Hrun.
    cbv zeta in T. destruct T as (Ht & Hm).
    pose proof (tree_insert_frame (node_alloc_ok sv) (tree u1) ptr n) as F.
    pose proof (tree_insert_charge (node_alloc_ok sv) (tree u1) ptr n
                  (sizeof_TREE_ELEMENT + Tree.size_of_element (tree u1))
                  Hn) as C.
    cbv zeta in F, C. rewrite <- Ht in F, C.
    destruct F as (_ & Fsize & _).
    rewrite Hm. unfold charged at 1. rewrite Fsize, C.
    destruct (Tree.elements_in_tree
                (tree (snd (insert_and_charge sv u1 ptr n (rec_size u n))))
              =? Tree.elements_in_tree (tree u1)).
    + exact Hinv1.
    + rewrite Hinv1, rec_size_wrap, <- Hsize1.
      fold (charged u1). unfold wrap64.
      rewrite Z.add_mod_idemp_l, Z.add_mod_idemp_r by lia.
      reflexivity.
Qed.

(** X11. [memory_used] is the total of what the entries of the tree are
    charged (key length plus [sizeof(TREE_ELEMENT)] plus
    [tree.size_of_element] for each), as a [size_t]: every series of calls
    whose lengths stay inside their buffers keeps this equation, through
    duplicates, failed allocations and flushes; without assertions every
    such series runs to its end. *)
Theorem memory_used_is_total_charge (cs : list call) (u : Unique_impl) :
  memory_used u = wrap64 (charged u) ->
  forallb inside_buffer cs = true ->
  (DBUG_OFF = true -> exists u', unique_add_all cs u = Done u') /\
  (forall u', unique_add_all cs u = Done u' ->
              memory_used u' = wrap64 (charged u')).
Proof.
  revert u. induction cs as [| c cs IH]; intros u Hinv Hcs.
  - split; [intros _; exists u; reflexivity |].
    simpl. intros u' E. injection E as <-. exact Hinv.
  - simpl in Hcs. apply andb_true_iff in Hcs. destruct Hcs as (Hc & Hcs).
    unfold inside_buffer in Hc. apply andb_true_iff in Hc.
    destruct Hc as (Hlo & Hhi).
    apply Z.leb_le in Hlo. apply Z.leb_le in Hhi.
    simpl. split.
    + intros Hoff.
      rewrite (unique_add_unfold (call_services c) u (call_ptr c)
                 (call_size c) _
                 (must_flush_safe u _ (or_introl Hoff))).
      match goal with
      | |- exists _, dbug_bind (if ?b then Done ?x else Done ?y) _ = _ =>
          assert (Hstep : exists s, (if b then Done x else Done y) = Done s)
            by (destruct b; eexists; reflexivity)
      end.
      destruct Hstep as ((r & u1) & Hstep). rewrite Hstep. simpl.
      assert (Hinv1 : memory_used u1 = wrap64 (charged u1)).
      { apply (unique_add_charge_step (call_services c) u (call_ptr c)
                 (call_size c) r u1 Hinv (conj Hlo Hhi)).
        rewrite (unique_add_unfold (call_services c) u (call_ptr c)
                   (call_size c) _
                   (must_flush_safe u _ (or_introl Hoff))).
        exact Hstep. }
      destruct (IH u1 Hinv1 Hcs) as (Htotal & _).
      exact (Htotal Hoff).
    + intros u' Hall.
      destruct (unique_add (call_services c) u (call_ptr c) (call_size c))
        as [[r u1] |] eqn:Hstep; [| discriminate].
      simpl in Hall.
      pose proof (unique_add_charge_step _ u _ _ r u1 Hinv (conj Hlo Hhi)
                    Hstep) as Hinv1.
      destruct (IH u1 Hinv1 Hcs) as (_ & Hkeeps).
      exact (Hkeeps u' Hall).
Qed.


(** ** What [unique_add] leaves alone *)

Lemma same_configuration_refl (u : Unique_impl) : same_configuration u u.
Proof. unfold same_configuration. auto 12. Qed.

Lemma flush_configuration (sv : services) (u : Unique_impl) :
  same_configuration u (snd (flush sv u)).
Proof.
  unfold flush.
  destruct (spill_write_ok sv); simpl; [| apply same_configuration_refl].
  destruct (directory_alloc_ok sv); simpl;
    unfold same_configuration; simpl; auto 12.
Qed.

Lemma insert_and_charge_configuration (sv : services) (u : Unique_impl)
  (ptr : key) (n rs : Z) :
  same_configuration u (snd (insert_and_charge sv u ptr n rs)).
Proof.
  unfold insert_and_charge.
  pose proof (tree_insert_frame (node_alloc_ok sv) (tree u) ptr n) as F.
  destruct (tree_insert (node_alloc_ok sv) (tree u) ptr n) as [res t].
  simpl in F. destruct F as (Ff & Fs & Fc).
  destruct (negb (Tree.elements_in_tree t =? Tree.elements_in_tree (tree u)));
    unfold same_configuration; simpl; auto 12.
Qed.

Lemma same_configuration_trans (u v w : Unique_impl) :
  same_configuration u v -> same_configuration v w -> same_configuration u w.
Proof.
  unfold same_configuration.
  intros (A1 & A2 & A3 & A4 & A5 & A6 & A7 & A8 & A9 & A10)
         (B1 & B2 & B3 & B4 & B5 & B6 & B7 & B8 & B9 & B10).
  repeat split; congruence.
Qed.

(** X12. A call of [unique_add] that returns, with or without a flush,
    with success or failure, changes nothing of the configuration: the
    budget, the key sizes, the counter option, the descriptor, the duplicate
    threshold, and the flag, element size and comparator of the tree are
    what they were. *)
Theorem unique_add_keeps_configuration (sv : services) (u : Unique_impl)
  (ptr : key) (n : Z) (r : bool) (u' : Unique_impl) :
  unique_add sv u ptr n = Done (r, u') ->
  same_configuration u u'.
Proof.
  intros Hrun.
  destruct (must_flush u (rec_size u n)) as [full |] eqn:Hguard.
  2:{ unfold unique_add in Hrun. rewrite Hguard in Hrun. discriminate. }
  rewrite (unique_add_unfold sv u ptr n full Hguard) in Hrun.
  destruct (full && fst (flush sv u)).
  - assert (Eu : u' = snd (flush sv u)) by congruence. subst u'.
    apply flush_configuration.
  - assert (Eu : u' = snd (insert_and_charge sv
                             (if full then snd (flush sv u) else u)
                             ptr n (rec_size u n)))
      by (injection Hrun as E; rewrite E; reflexivity).
    subst u'.
    apply (same_configuration_trans u (if full then snd (flush sv u) else u)).
    + destruct full; [apply flush_configuration
                     | apply same_configuration_refl].
    + apply insert_and_charge_configuration.
Qed.

(** ** Counting while nothing is spilled *)

(** X13. On an engine that has not spilled, a call that triggers no flush
    leaves the engine in memory, and [get_n_elements] goes up by one exactly
    when the key matches no entry, the tree takes new entries and the node
    is allocated; a duplicate leaves it unchanged. *)
Theorem get_n_elements_counts_new_keys (sv : services) (u : Unique_impl)
  (ptr : key) (n : Z) :
  is_in_memory u = true ->
  space_left_safe u ->
  budget_exceeded u (rec_size u n) = false ->
  exists r u',
    unique_add sv u ptr n = Done (r, u') /\
    is_in_memory u' = true /\
    get_n_elements u' =
      if is_duplicate u ptr then get_n_elements u
      else if (Z.land (Tree.flag (tree u)) TREE_ONLY_DUPS =? 0)
              && node_alloc_ok sv
           then wrap32 (get_n_elements u + 1)
           else get_n_elements u.
Proof.
  intros Hmem Hsafe Hroom.
  rewrite (unique_add_unfold sv u ptr n _ (must_flush_safe u _ Hsafe)).
  rewrite Hroom. simpl.
  pose proof (insert_and_charge_frame sv u ptr n (rec_size u n)) as F.
  pose proof (insert_and_charge_cases sv u ptr n (rec_size u n)) as C.
  destruct (insert_and_charge sv u ptr n (rec_size u n)) as [r u'].
  simpl in F, C. destruct F as (Ffile & _). destruct C as (_ & C).
  exists r, u'. split; [reflexivity |].
  assert (Hmem' : is_in_memory u' = true)
    by (unfold is_in_memory in *; rewrite Ffile; exact Hmem).
  split; [exact Hmem' |].
  unfold get_n_elements, elements_in_tree. rewrite Hmem, Hmem'.
  destruct C as [(Hd & _ & Hn & _)
                | [(Hd & Hclear & Hok & _ & Hn & _)
                  | (Hd & Hwhy & _ & Ht & _)]].
  - rewrite Hd. exact Hn.
  - rewrite Hd, Hclear, Hok. simpl. exact Hn.
  - rewrite Hd, Ht.
    destruct Hwhy as [Hset | Hfail].
    + destruct (Z.eqb_spec (Z.land (Tree.flag (tree u)) TREE_ONLY_DUPS) 0);
        [contradiction | reflexivity].
    + rewrite Hfail, andb_false_r. reflexivity.
Qed.

(** ** Calls after [close_for_expansion] *)

Lemma unique_add_only_dups_count (sv : services) (u : Unique_impl)
  (ptr : key) (n : Z) :
  Z.land (Tree.flag (tree u)) TREE_ONLY_DUPS <> 0 ->
  exists u',
    unique_add sv u ptr n = Done (false, u') /\
    Tree.flag (tree u') = Tree.flag (tree u) /\
    file u' = file u /\ elements u' = elements u /\
    Tree.elements_in_tree (tree u') = Tree.elements_in_tree (tree u) /\
    length (Tree.nodes (tree u')) = length (Tree.nodes (tree u)).
Proof.
  intros Hflag.
  rewrite (unique_add_unfold sv u ptr n false)
    by (apply must_flush_only_dups; exact Hflag).
  simpl.
  pose proof (insert_and_charge_frame sv u ptr n (rec_size u n)) as F.
  pose proof (insert_and_charge_cases sv u ptr n (rec_size u n)) as C.
  destruct (insert_and_charge sv u ptr n (rec_size u n)) as [r u'].
  simpl in F, C. destruct F as (Ffile & _ & Fel & _ & Fflag & _).
  destruct C as (_ & [(_ & Hr & Hn & Hl & _)
                     | [(_ & Hclear & _) | (_ & _ & Hiff & Ht & _)]]).
  - subst r. exists u'. auto 10.
  - contradiction.
  - assert (r = false).
    { destruct r; [| reflexivity].
      destruct Hiff as [Hiff _]. destruct (Hiff eq_refl). contradiction. }
    subst r. exists u'. rewrite Ht. auto 10.
Qed.

(** X14. After [close_for_expansion] every call of [unique_add] returns
    success, also when no node can be allocated, and no series of calls
    changes the number of entries of the tree or what [get_n_elements] and
    [is_in_memory] return. *)
Theorem only_dups_calls_keep_the_count (u : Unique_impl) (cs : list call) :
  TREE_ONLY_DUPS <> 0 ->
  exists u',
    unique_add_all cs (close_for_expansion u) = Done u' /\
    elements_in_tree u' = elements_in_tree u /\
    length (Tree.nodes (tree u')) = length (Tree.nodes (tree u)) /\
    get_n_elements u' = get_n_elements u /\
    is_in_memory u' = is_in_memory u /\
    (forall sv ptr n, exists u'', unique_add sv u' ptr n = Done (false, u'')).
Proof.
  intros Hbit.
  assert (Hgen : forall cs v,
             Tree.flag (tree v) = TREE_ONLY_DUPS ->
             exists v',
               unique_add_all cs v = Done v' /\
               Tree.flag (tree v') = TREE_ONLY_DUPS /\
               file v' = file v /\ elements v' = elements v /\
               Tree.elements_in_tree (tree v')
                 = Tree.elements_in_tree (tree v) /\
               length (Tree.nodes (tree v')) = length (Tree.nodes (tree v))).
  { clear cs. induction cs as [| c cs IH]; intros v Hv.
    - exists v. simpl. auto 10.
    - assert (Hland : Z.land (Tree.flag (tree v)) TREE_ONLY_DUPS <> 0)
        by (rewrite Hv, Z.land_diag; exact Hbit).
      destruct (unique_add_only_dups_count (call_services c) v (call_ptr c)
                  (call_size c) Hland)
        as (v1 & Hrun & Hfl & Hf & He & Hn & Hl).
      destruct (IH v1) as (v' & Hall & Hfl' & Hf' & He' & Hn' & Hl').
      { rewrite Hfl. exact Hv. }
      exists v'. simpl. rewrite Hrun. simpl.
      split; [exact Hall |]. split; [exact Hfl' |].
      repeat split; congruence. }
  destruct (Hgen cs (close_for_expansion u) eq_refl)
    as (u' & Hall & Hfl & Hf & He & Hn & Hl).
  simpl in Hf, He, Hn, Hl.
  exists u'. split; [exact Hall |].
  assert (Hmem : is_in_memory u' = is_in_memory u)
    by (unfold is_in_memory; rewrite Hf; reflexivity).
  split; [exact Hn |]. split; [exact Hl |].
  split; [unfold get_n_elements, elements_in_tree;
          rewrite Hmem, Hn, He; reflexivity |].
  split; [exact Hmem |].
  intros sv ptr n.
  assert (Hland : Z.land (Tree.flag (tree u')) TREE_ONLY_DUPS <> 0)
    by (rewrite Hfl, Z.land_diag; exact Hbit).
  destruct (unique_add_only_dups_count sv u' ptr n Hland) as (u'' & Hrun & _).
  exists u''. exact Hrun.
Qed.


(** ** The size of the cost buffer *)

Lemma slots_positive (nkeys key_size budget : Z) :
  cost_arguments nkeys key_size budget ->
  1 <= slots nkeys key_size budget <= 1 + nkeys.
Proof.
  intros (_ & _ & _ & Hn & _ & _). unfold slots.
  set (m := Z.max 1 _).
  assert (1 <= m) by (subst m; lia).
  assert (0 <= nkeys / m) by (apply Z.div_pos; lia).
  assert (nkeys / m <= nkeys) by (apply Z.div_le_upper_bound; nia).
  lia.
Qed.

(** The function in terms of [slots]. *)
Lemma get_cost_calc_buff_size_slots (nkeys key_size budget : Z) :
  cost_arguments nkeys key_size budget ->
  get_cost_calc_buff_size nkeys key_size budget
  = to_int (wrap64 (sizeof_uint * slots nkeys key_size budget)).
Proof.
  intros (Hs0 & Hs1 & Hk & Hn & Hb & Ha).
  unfold get_cost_calc_buff_size, slots. cbv zeta.
  rewrite (wrap64_small (sizeof_TREE_ELEMENT + key_size)) by lia.
  assert (Hq : 0 <= budget / ALIGN_SIZE (sizeof_TREE_ELEMENT + key_size))
    by (apply Z.div_pos; lia).
  assert (Hm : (if budget / ALIGN_SIZE (sizeof_TREE_ELEMENT + key_size) =? 0
                then 1
                else budget / ALIGN_SIZE (sizeof_TREE_ELEMENT + key_size))
               = Z.max 1 (budget / ALIGN_SIZE (sizeof_TREE_ELEMENT + key_size))).
  { destruct (Z.eqb_spec
                (budget / ALIGN_SIZE (sizeof_TREE_ELEMENT + key_size)) 0);
      lia. }
  rewrite Hm. unfold sizeof_uint, wrap64.
  f_equal. rewrite Z.mul_mod_idemp_r by lia. reflexivity.
Qed.

Lemma get_cost_calc_buff_size_fits (nkeys key_size budget : Z) :
  cost_arguments nkeys key_size budget ->
  sizeof_uint * slots nkeys key_size budget <= INT_MAX ->
  get_cost_calc_buff_size nkeys key_size budget
  = sizeof_uint * slots nkeys key_size budget.
Proof.
  intros Hargs Hfit.
  rewrite (get_cost_calc_buff_size_slots _ _ _ Hargs).
  pose proof (slots_positive _ _ _ Hargs) as Hpos.
  unfold INT_MAX, sizeof_uint in *.
  rewrite wrap64_small by lia.
  apply to_int_small. unfold INT_MAX. lia.
Qed.

(** X15. Whatever the arguments, also when the result overflows [int], the
    size returned by [get_cost_calc_buff_size] is a whole number of
    [uint]s. *)
Theorem get_cost_calc_buff_size_whole_uints (nkeys key_size budget : Z) :
  get_cost_calc_buff_size nkeys key_size budget mod sizeof_uint = 0.
Proof.
  unfold get_cost_calc_buff_size. cbv zeta.
  set (w := wrap64 (1 + nkeys / _)).
  unfold sizeof_uint, to_int, wrap32, wrap64.
  replace (2 ^ 64) with (4 * 2 ^ 62) by reflexivity.
  rewrite Z.mul_mod_distr_l by lia.
  replace (2 ^ 32) with (4 * 2 ^ 30) by reflexivity.
  rewrite Z.mul_mod_distr_l by lia.
  set (y := (w mod 2 ^ 62) mod 2 ^ 30).
  destruct (4 * y <? 2 ^ 31).
  - rewrite Z.mul_comm. apply Z.mod_mul. lia.
  - replace (4 * y - 4 * 2 ^ 30) with ((y - 2 ^ 30) * 4) by lia.
    apply Z.mod_mul. lia.
Qed.

(** X16. When fewer keys are expected than fit into the tree at once, the
    buffer has room for a single [uint]. *)
Theorem get_cost_calc_buff_size_single_slot (nkeys key_size budget : Z) :
  cost_arguments nkeys key_size budget ->
  nkeys < budget / ALIGN_SIZE (sizeof_TREE_ELEMENT + key_size) ->
  get_cost_calc_buff_size nkeys key_size budget = sizeof_uint.
Proof.
  intros Hargs Hfew.
  assert (Hslots : slots nkeys key_size budget = 1).
  { destruct Hargs as (_ & _ & _ & Hn & _ & _). unfold slots.
    rewrite Z.div_small by lia. reflexivity. }
  rewrite (get_cost_calc_buff_size_fits _ _ _ Hargs);
    rewrite Hslots; unfold sizeof_uint, INT_MAX; lia.
Qed.

(** X17. A budget below the aligned size of one element counts as room for
    one element: the buffer then has a slot for every key and one more. *)
Theorem get_cost_calc_buff_size_tiny_budget (nkeys key_size budget : Z) :
  cost_arguments nkeys key_size budget ->
  budget < ALIGN_SIZE (sizeof_TREE_ELEMENT + key_size) ->
  sizeof_uint * (1 + nkeys) <= INT_MAX ->
  get_cost_calc_buff_size nkeys key_size budget = sizeof_uint * (1 + nkeys).
Proof.
  intros Hargs Htiny Hfit.
  assert (Hslots : slots nkeys key_size budget = 1 + nkeys).
  { destruct Hargs as (_ & _ & _ & _ & Hb & _). unfold slots.
    rewrite (Z.div_small budget) by lia.
    rewrite Z.max_l by lia. rewrite Z.div_1_r. reflexivity. }
  rewrite (get_cost_calc_buff_size_fits _ _ _ Hargs);
    rewrite Hslots; [reflexivity | exact Hfit].
Qed.

(** X18. Below [INT_MAX] the size never shrinks when more keys are expected
    and never grows with a larger budget. *)
Theorem get_cost_calc_buff_size_monotone
  (nkeys nkeys' key_size budget budget' : Z) :
  cost_arguments nkeys key_size budget ->
  cost_arguments nkeys' key_size budget' ->
  nkeys <= nkeys' ->
  budget' <= budget ->
  sizeof_uint * slots nkeys' key_size budget' <= INT_MAX ->
  get_cost_calc_buff_size nkeys key_size budget
  <= get_cost_calc_buff_size nkeys' key_size budget'.
Proof.
  intros Hargs Hargs' Hn Hb Hfit.
  assert (Hle : slots nkeys key_size budget <= slots nkeys' key_size budget').
  { destruct Hargs as (_ & _ & _ & Hn0 & Hb0 & Ha).
    destruct Hargs' as (_ & _ & _ & Hn0' & Hb0' & _).
    unfold slots.
    set (a := ALIGN_SIZE (sizeof_TREE_ELEMENT + key_size)) in *.
    assert (Hq : budget' / a <= budget / a) by (apply Z.div_le_mono; lia).
    assert (Hm : 0 < Z.max 1 (budget' / a) <= Z.max 1 (budget / a)) by lia.
    assert (H1 : nkeys / Z.max 1 (budget / a)
                 <= nkeys' / Z.max 1 (budget / a))
      by (apply Z.div_le_mono; lia).
    assert (H2 : nkeys' / Z.max 1 (budget / a)
                 <= nkeys' / Z.max 1 (budget' / a))
      by (apply Z.div_le_compat_l; lia).
    lia. }
  rewrite (get_cost_calc_buff_size_fits _ _ _ Hargs')
    by exact Hfit.
  rewrite (get_cost_calc_buff_size_fits _ _ _ Hargs)
    by (unfold sizeof_uint in *; lia).
  unfold sizeof_uint. lia.
Qed.

End Engine.

(** * The engine on concrete inputs

    The parameters are those of a 64-bit build: [sizeof(TREE_ELEMENT)] is 24,
    [TREE_ONLY_DUPS] is the flag bit 2, [ALIGN_SIZE] rounds up to a multiple
    of 8, occurrence counts take four bytes. *)

(** ** An oversized first key *)

(** C1. With a budget of 10 bytes, a first key of 100 bytes is admitted into
    the empty tree and charged 124 bytes.  The next call then finds
    [memory_used] above the budget: in a build without assertions the
    difference wraps around, no flush is triggered, and the tree ends up with
    two elements and 154 bytes charged, nothing spilled; in a build with
    assertions the call stops at the assertion. *)
Theorem memory_bound_lost_after_oversized_key :
  exists u1 u2,
    unique_add 24 2 true count_field_4 all_ok (empty_engine 10) key_wide 100
      = Done (false, u1) /\
    Tree.elements_in_tree (tree u1) = 1 /\ memory_used u1 = 124 /\
    must_flush 2 true u1 (rec_size 24 u1 6) = Done false /\
    unique_add 24 2 true count_field_4 all_ok u1 key_a 6 = Done (false, u2) /\
    Tree.elements_in_tree (tree u2) = 2 /\ memory_used u2 = 154 /\
    max_in_memory_size u2 = 10 /\
    file_ptrs u2 = [] /\ file_data (file u2) = [] /\
    unique_add 24 2 false count_field_4 all_ok u1 key_a 6 = Assertion_failed.
Proof.
  eexists. eexists.
  split; [vm_compute; reflexivity |].
  repeat split; vm_compute; reflexivity.
Qed.

(** C10. In the state reached by admitting a 100-byte key under a budget of
    10 bytes, the next [unique_add] evaluates [space_left] (the tree holds an
    element and is not in [TREE_ONLY_DUPS] mode) although the asserted
    condition [max_in_memory_size >= memory_used] is false: with assertions
    the evaluation fails, without them the subtraction wraps around to
    [2^64 - 114]. *)
Theorem space_left_assertion_violated :
  exists u1,
    unique_add 24 2 false count_field_4 all_ok (empty_engine 10) key_wide 100
      = Done (false, u1) /\
    Z.land (Tree.flag (tree u1)) 2 = 0 /\
    Tree.elements_in_tree (tree u1) = 1 /\
    (max_in_memory_size u1 >=? memory_used u1) = false /\
    space_left false u1 = Assertion_failed /\
    is_full false u1 (rec_size 24 u1 6) = Assertion_failed /\
    space_left true u1 = Done (2 ^ 64 - 114) /\
    is_full true u1 (rec_size 24 u1 6) = Done false.
Proof.
  eexists.
  split; [vm_compute; reflexivity |].
  repeat split; vm_compute; reflexivity.
Qed.

(** ** Calls that do not follow the stated rule *)

(** C2, counterexample. A tree in [TREE_ONLY_DUPS] mode that holds one
    element, with 10 bytes left of the budget, receives a record of 30
    bytes: nothing is flushed. *)
Lemma only_dups_call_does_not_flush :
  exists u v,
    unique_add 24 2 true count_field_4 all_ok (empty_engine 40) key_a 6
      = Done (false, u) /\
    close_for_expansion 2 u = v /\
    Tree.elements_in_tree (tree v) = 1 /\
    space_left true v = Done 10 /\
    rec_size 24 v 6 = 30 /\
    must_flush 2 true v (rec_size 24 v 6) = Done false /\
    exists v',
      unique_add 24 2 true count_field_4 all_ok v key_b 6 = Done (false, v') /\
      file_data (file v') = [] /\ file_ptrs v' = [] /\ tree v' = tree v.
Proof.
  eexists. eexists.
  split; [vm_compute; reflexivity |].
  split; [vm_compute; reflexivity |].
  repeat split; try (vm_compute; reflexivity).
  eexists.
  split; [vm_compute; reflexivity |].
  repeat split; vm_compute; reflexivity.
Qed.

(** C3, counterexample. Under a budget of 70 bytes the tree holds two keys
    charged 30 bytes each; adding the first key again finds the budget
    exceeded, so the tree is flushed and the key enters the emptied tree as
    a new entry: [memory_used] goes from 60 to 30 although the key was an
    entry of the tree when the call was made. *)
Lemma duplicate_after_flush_is_charged :
  exists u u',
    unique_add_all 24 2 true count_field_4
      [mkCall all_ok key_a 6; mkCall all_ok key_b 6] (empty_engine 70)
      = Done u /\
    is_duplicate u key_a = true /\
    memory_used u = 60 /\
    unique_add 24 2 true count_field_4 all_ok u key_a 6 = Done (false, u') /\
    memory_used u' = 30 /\
    Tree.elements_in_tree (tree u) = 2 /\
    Tree.elements_in_tree (tree u') = 1.
Proof.
  eexists. eexists.
  split; [vm_compute; reflexivity |].
  repeat split; vm_compute; reflexivity.
Qed.

(** C4, counterexample. Two keys that a bytewise comparator tells apart
    compare as equal under the fixed-size descriptor. *)
Lemma fixed_size_compare_keys_ignores_order :
  memcmp_keys key_a key_b <> 0 /\
  Fixed_size_keys.compare_keys (Fixed_size_keys_descriptor 6 1) key_a key_b = 0.
Proof. split; [vm_compute; discriminate | reflexivity]. Qed.

(** C7, counterexample. For [2^29] keys of 8 bytes under a budget of 32
    bytes one element fits the tree, the formula gives [4 * (1 + 2^29)],
    which is above [INT_MAX]; the function returns a negative number. *)
Lemma get_cost_calc_buff_size_overflows_int :
  get_cost_calc_buff_size 24 align_8 (2 ^ 29) 8 32 = -2147483644 /\
  sizeof_uint * (1 + 2 ^ 29 / Z.max 1 (32 / align_8 (24 + 8))) = 2147483652.
Proof. split; vm_compute; reflexivity. Qed.

(** ** The theorems at concrete inputs *)

(** C6, counterexample. A prefix of four [ff] bytes holds the payload
    length [2^32 - 1]; 4 plus that length is 4294967299, and
    [get_length_of_key] returns 3. *)
Lemma get_length_of_key_wraps_at_full_prefix :
  get_length_of_key (Variable_size_keys_descriptor 0 2 [])
    (repeat Byte.xff 4) = 3 /\
  Variable_size_keys.size_of_length_field + uint4korr (repeat Byte.xff 4)
    = 4294967299.
Proof. split; vm_compute; reflexivity. Qed.

(** A 6-byte key buffer stamped with the total size 6. *)
Lemma get_length_of_packed_key_witness :
  get_length_of_key (Variable_size_keys_descriptor 0 2 [])
    (Variable_size_keys.store_packed_length key_a 6)
  = Variable_size_keys.size_of_length_field
    + uint4korr (Variable_size_keys.store_packed_length key_a 6) /\
  Variable_size_keys.read_packed_length
    (Variable_size_keys.store_packed_length key_a 6) = 6.
Proof.
  assert (H : 4 <= 6 < 2 ^ 32) by lia.
  destruct (get_length_of_packed_key 0 2 [] key_a key_a 6)
    as (_ & _ & Hround).
  destruct (Hround H) as (_ & Hlen & Hread & _).
  split; [exact Hlen | exact Hread].
Defined.

(** An engine that has not spilled anything. *)
Lemma get_n_elements_split_witness :
  is_in_memory (empty_engine 70) = true <->
  file_data (file (empty_engine 70)) = [].
Proof.
  assert (H : Z.of_nat (length (file_data (file (empty_engine 70)))) < 2 ^ 64)
    by (simpl; lia).
  exact (proj1 (proj2 (get_n_elements_split (empty_engine 70) H))).
Defined.

(** 1000 keys of 8 bytes under a budget of 320 bytes: ten elements fit the
    tree, 101 slots of four bytes are needed. *)
Lemma get_cost_calc_buff_size_formula_witness :
  get_cost_calc_buff_size 24 align_8 1000 8 320 = 404.
Proof.
  assert (H1 : 0 <= 24) by lia.
  assert (H2 : 24 + 2 ^ 32 <= 2 ^ 64) by lia.
  assert (H3 : 0 <= 8 < 2 ^ 32) by lia.
  assert (H4 : 0 <= 1000 < 2 ^ 64) by lia.
  assert (H5 : 0 <= 320 < 2 ^ 64) by lia.
  assert (H6 : 0 < align_8 (24 + 8)) by (vm_compute; reflexivity).
  destruct (get_cost_calc_buff_size_formula 24 align_8 1000 8 320
              H1 H2 H3 H4 H5 H6) as (_ & Hexact).
  rewrite Hexact; vm_compute; [reflexivity | discriminate].
Defined.

(** A first key whose node cannot be allocated. *)
Lemma unique_add_failure_condition_witness :
  exists r u',
    unique_add 24 2 false count_field_4 (mkServices false true true)
      (empty_engine 70) key_a 6 = Done (r, u') /\
    r = true.
Proof.
  assert (H : space_left_safe false (empty_engine 70))
    by (right; simpl; lia).
  destruct (unique_add_failure_condition 24 2 false count_field_4
              (mkServices false true true) (empty_engine 70) key_a 6 H)
    as (r & u' & Hrun & Hiff & _).
  exists r, u'. split; [exact Hrun |].
  apply Hiff. right. split; reflexivity.
Defined.

(** Two calls after [close_for_expansion], one of them with a record far
    above the budget. *)
Lemma no_spill_after_close_for_expansion_witness :
  exists u',
    unique_add_all 24 2 false count_field_4
      [mkCall all_ok key_a 6; mkCall all_ok key_wide 100]
      (close_for_expansion 2 (empty_engine 10)) = Done u' /\
    file_ptrs u' = [].
Proof.
  assert (H : 2 <> 0) by discriminate.
  destruct (no_spill_after_close_for_expansion 24 2 false count_field_4
              (empty_engine 10)
              [mkCall all_ok key_a 6; mkCall all_ok key_wide 100] H)
    as (u' & Hall & _ & _ & _ & Hptrs & _).
  exists u'. split; [exact Hall | exact Hptrs].
Defined.

(** A first key of 6 bytes is charged 30 bytes. *)
Lemma unique_add_charges_new_entries_witness :
  exists r u',
    unique_add 24 2 false count_field_4 all_ok (empty_engine 70) key_a 6
      = Done (r, u') /\
    memory_used u' = 30.
Proof.
  assert (H1 : space_left_safe false (empty_engine 70))
    by (right; simpl; lia).
  assert (H2 : budget_exceeded 2 (empty_engine 70)
                 (rec_size 24 (empty_engine 70) 6)
               && fst (flush count_field_4 all_ok (empty_engine 70)) = false)
    by reflexivity.
  destruct (unique_add_charges_new_entries 24 2 false count_field_4 all_ok
              (empty_engine 70) key_a 6 H1 H2)
    as (r & u' & Hrun & Hmem & Hgrow & _).
  exists r, u'. split; [exact Hrun |].
  assert (Hneq : Tree.elements_in_tree (tree u')
                 <> Tree.elements_in_tree (tree (empty_engine 70))).
  { apply Hgrow. repeat split; reflexivity. }
  simpl in Hmem, Hneq.
  destruct (Z.eqb_spec (Tree.elements_in_tree (tree u')) 0) as [E | _];
    [contradiction | exact Hmem].
Defined.

(** Two keys under a budget of 70 bytes, then a third call that finds the
    budget exceeded. *)
Lemma flush_before_insert_witness :
  exists u,
    unique_add_all 24 2 false count_field_4
      [mkCall all_ok key_a 6; mkCall all_ok key_b 6] (empty_engine 70)
      = Done u /\
    Tree.nodes (tree u) <> [].
Proof.
  assert (H1 : within_budget (empty_engine 70))
    by (unfold within_budget; simpl; lia).
  assert (H2 : counted (tree (empty_engine 70))) by reflexivity.
  assert (H3 : Z.of_nat (length (Tree.nodes (tree (empty_engine 70))))
               + Z.of_nat (length [mkCall all_ok key_a 6;
                                   mkCall all_ok key_b 6]) < 2 ^ 32)
    by (simpl; lia).
  assert (H4 : max_in_memory_size (empty_engine 70) < 2 ^ 64)
    by (simpl; lia).
  assert (H5 : forallb (fits 24 (empty_engine 70))
                 [mkCall all_ok key_a 6; mkCall all_ok key_b 6] = true)
    by reflexivity.
  destruct (flush_before_insert 24 2 false count_field_4 (empty_engine 70)
              [mkCall all_ok key_a 6; mkCall all_ok key_b 6]
              all_ok key_a 6 H1 H2 H3 H4 H5)
    as (u & Hall & Hiff & _ & _ & Hfull).
  exists u. split; [exact Hall |].
  apply Hfull, Hiff.
  assert (E : unique_add_all 24 2 false count_field_4
                [mkCall all_ok key_a 6; mkCall all_ok key_b 6]
                (empty_engine 70) = Done u) by exact Hall.
  vm_compute in E. injection E as <-.
  repeat split; vm_compute; try reflexivity; discriminate.
Defined.

(** ** The further properties at concrete inputs *)

(** A size below the width of the prefix. *)
Lemma stored_length_reads_back_any_size_witness :
  Variable_size_keys.read_packed_length
    (Variable_size_keys.store_packed_length key_a 2) = 2.
Proof.
  assert (H : 0 <= 2 < 2 ^ 32) by lia.
  exact (proj1 (stored_length_reads_back_any_size key_a 2 H)).
Defined.

(** A store into a 6-byte buffer keeps its two payload bytes. *)
Lemma store_packed_length_writes_prefix_only_witness :
  skipn 4 (Variable_size_keys.store_packed_length key_a 6) = skipn 4 key_a.
Proof.
  assert (H : (4 <= length key_a)%nat) by (simpl; lia).
  destruct (store_packed_length_writes_prefix_only key_a
              (Variable_size_keys.store_packed_length key_a 6) 6 5 H)
    as ((Hchar & _) & _).
  exact (proj1 (proj2 (Hchar eq_refl))).
Defined.

(** A stamped 6-byte key given to an engine for variable-size keys. *)
Lemma unique_add_ptr_packed_key_witness :
  unique_add_ptr 24 2 false count_field_4 all_ok (packed_engine 70)
    (Variable_size_keys.store_packed_length key_a 6)
  = unique_add 24 2 false count_field_4 all_ok (packed_engine 70)
      (Variable_size_keys.store_packed_length key_a 6) 6.
Proof.
  assert (H1 : m_descriptor (packed_engine 70)
               = Variable_size_keys_descriptor 0 2 []) by reflexivity.
  assert (H2 : 0 <= 6 < 2 ^ 32) by lia.
  exact (unique_add_ptr_packed_key 24 2 false count_field_4 all_ok
           (packed_engine 70) 0 2 [] key_a 6 H1 H2).
Defined.

(** A 100-byte key for an empty tree with a budget of 10 bytes. *)
Lemma first_element_always_admitted_witness :
  unique_add 24 2 false count_field_4 all_ok (empty_engine 10) key_wide 100
  = Done (insert_and_charge 2 all_ok (empty_engine 10) key_wide 100
            (rec_size 24 (empty_engine 10) 100)).
Proof.
  assert (H : Tree.elements_in_tree (tree (empty_engine 10)) = 0)
    by reflexivity.
  exact (proj1 (first_element_always_admitted 24 2 false count_field_4
                  all_ok (empty_engine 10) key_wide 100 H)).
Defined.

(** One entry charged 124 bytes under a budget of 10 bytes. *)
Lemma over_budget_tree_is_not_flushed_witness :
  must_flush 2 true (loaded_engine 10) (rec_size 24 (loaded_engine 10) 6)
  = Done false.
Proof.
  assert (H1 : true = true) by reflexivity.
  assert (H2 : 0 <= max_in_memory_size (loaded_engine 10)) by (simpl; lia).
  assert (H3 : max_in_memory_size (loaded_engine 10)
               < memory_used (loaded_engine 10)) by (simpl; lia).
  assert (H4 : memory_used (loaded_engine 10) < 2 ^ 64) by (simpl; lia).
  assert (H5 : rec_size 24 (loaded_engine 10) 6
               <= 2 ^ 64 - (memory_used (loaded_engine 10)
                            - max_in_memory_size (loaded_engine 10)))
    by (vm_compute; discriminate).
  exact (proj1 (proj2 (over_budget_tree_is_not_flushed 24 2 true
                         count_field_4 all_ok (loaded_engine 10) key_a 6
                         H1 H2 H3 H4 H5))).
Defined.

(** The same entry under a budget of 150 bytes, and a record of 30. *)
Lemma is_full_means_over_budget_witness :
  is_full false (loaded_engine 150) 30 = Done true.
Proof.
  assert (H1 : 0 <= memory_used (loaded_engine 150)
               <= max_in_memory_size (loaded_engine 150)) by (simpl; lia).
  assert (H2 : max_in_memory_size (loaded_engine 150) < 2 ^ 64)
    by (simpl; lia).
  assert (H3 : Tree.elements_in_tree (tree (loaded_engine 150)) <> 0)
    by (simpl; lia).
  exact (is_full_means_over_budget false (loaded_engine 150) 30 H1 H2 H3).
Defined.

(** Three keys of 30 bytes each under a budget of 70 bytes. *)
Lemma budget_respected_when_records_fit_witness :
  exists u',
    unique_add_all 24 2 false count_field_4
      [mkCall all_ok key_a 6; mkCall all_ok key_b 6; mkCall all_ok key_a 6]
      (empty_engine 70) = Done u' /\
    0 <= memory_used u' <= max_in_memory_size u'.
Proof.
  assert (H1 : within_budget (empty_engine 70))
    by (unfold within_budget; simpl; lia).
  assert (H2 : counted (tree (empty_engine 70))) by reflexivity.
  assert (H3 : Z.of_nat (length (Tree.nodes (tree (empty_engine 70))))
               + Z.of_nat (length [mkCall all_ok key_a 6;
                                   mkCall all_ok key_b 6;
                                   mkCall all_ok key_a 6]) < 2 ^ 32)
    by (simpl; lia).
  assert (H4 : max_in_memory_size (empty_engine 70) < 2 ^ 64)
    by (simpl; lia).
  assert (H5 : forallb (fits 24 (empty_engine 70))
                 [mkCall all_ok key_a 6; mkCall all_ok key_b 6;
                  mkCall all_ok key_a 6] = true) by reflexivity.
  destruct (budget_respected_when_records_fit 24 2 false count_field_4
              [mkCall all_ok key_a 6; mkCall all_ok key_b 6;
               mkCall all_ok key_a 6] (empty_engine 70) H1 H2 H3 H4 H5)
    as (u' & Hall & Hmem & _).
  exists u'. split; [exact Hall | exact Hmem].
Defined.

(** An oversized key followed by a small one, without assertions. *)
Lemma memory_used_is_total_charge_witness :
  exists u',
    unique_add_all 24 2 true count_field_4
      [mkCall all_ok key_wide 100; mkCall all_ok key_a 6] (empty_engine 10)
    = Done u' /\
    memory_used u' = wrap64 (charged 24 u').
Proof.
  assert (H1 : memory_used (empty_engine 10)
               = wrap64 (charged 24 (empty_engine 10))) by reflexivity.
  assert (H2 : forallb inside_buffer
                 [mkCall all_ok key_wide 100; mkCall all_ok key_a 6] = true)
    by reflexivity.
  destruct (memory_used_is_total_charge 24 2 true count_field_4
              [mkCall all_ok key_wide 100; mkCall all_ok key_a 6]
              (empty_engine 10) H1 H2) as (Htotal & Hkeeps).
  destruct (Htotal eq_refl) as (u' & Hall).
  exists u'. split; [exact Hall | exact (Hkeeps u' Hall)].
Defined.

(** A call that flushes the tree before it inserts its key. *)
Lemma unique_add_keeps_configuration_witness :
  same_configuration (loaded_engine 140)
    (snd (insert_and_charge 2 all_ok
            (snd (flush count_field_4 all_ok (loaded_engine 140)))
            key_a 6 (rec_size 24 (loaded_engine 140) 6))).
Proof.
  assert (H : unique_add 24 2 false count_field_4 all_ok (loaded_engine 140)
                key_a 6
              = Done (insert_and_charge 2 all_ok
                        (snd (flush count_field_4 all_ok (loaded_engine 140)))
                        key_a 6 (rec_size 24 (loaded_engine 140) 6)))
    by reflexivity.
  rewrite (surjective_pairing
             (insert_and_charge 2 all_ok
                (snd (flush count_field_4 all_ok (loaded_engine 140)))
                key_a 6 (rec_size 24 (loaded_engine 140) 6))) in H.
  exact (unique_add_keeps_configuration 24 2 false count_field_4 all_ok
           (loaded_engine 140) key_a 6 _ _ H).
Defined.

(** A first key for an engine that has not spilled. *)
Lemma get_n_elements_counts_new_keys_witness :
  exists r u',
    unique_add 24 2 false count_field_4 all_ok (empty_engine 70) key_a 6
      = Done (r, u') /\
    get_n_elements u' = 1.
Proof.
  assert (H1 : is_in_memory (empty_engine 70) = true) by reflexivity.
  assert (H2 : space_left_safe false (empty_engine 70))
    by (right; simpl; lia).
  assert (H3 : budget_exceeded 2 (empty_engine 70)
                 (rec_size 24 (empty_engine 70) 6) = false) by reflexivity.
  destruct (get_n_elements_counts_new_keys 24 2 false count_field_4 all_ok
              (empty_engine 70) key_a 6 H1 H2 H3)
    as (r & u' & Hrun & _ & Hcount).
  exists r, u'. split; [exact Hrun | exact Hcount].
Defined.

(** Two calls after [close_for_expansion] on an engine with one entry. *)
Lemma only_dups_calls_keep_the_count_witness :
  exists u',
    unique_add_all 24 2 false count_field_4
      [mkCall all_ok key_a 6; mkCall (mkServices false true true) key_b 6]
      (close_for_expansion 2 (loaded_engine 10)) = Done u' /\
    get_n_elements u' = get_n_elements (loaded_engine 10).
Proof.
  assert (H : 2 <> 0) by discriminate.
  destruct (only_dups_calls_keep_the_count 24 2 false count_field_4
              (loaded_engine 10)
              [mkCall all_ok key_a 6;
               mkCall (mkServices false true true) key_b 6] H)
    as (u' & Hall & _ & _ & Hcount & _).
  exists u'. split; [exact Hall | exact Hcount].
Defined.

Lemma cost_arguments_example (nkeys budget : Z) :
  0 <= nkeys < 2 ^ 64 -> 0 <= budget < 2 ^ 64 ->
  cost_arguments 24 align_8 nkeys 8 budget.
Proof.
  intros Hn Hb. unfold cost_arguments.
  repeat split; try lia; try (vm_compute; congruence).
Qed.

(** Five keys of 8 bytes under a budget of 320 bytes. *)
Lemma get_cost_calc_buff_size_single_slot_witness :
  get_cost_calc_buff_size 24 align_8 5 8 320 = sizeof_uint.
Proof.
  assert (H1 : cost_arguments 24 align_8 5 8 320)
    by (apply cost_arguments_example; lia).
  assert (H2 : 5 < 320 / align_8 (24 + 8)) by (vm_compute; reflexivity).
  exact (get_cost_calc_buff_size_single_slot 24 align_8 5 8 320 H1 H2).
Defined.

(** A thousand keys of 8 bytes under a budget of 16 bytes. *)
Lemma get_cost_calc_buff_size_tiny_budget_witness :
  get_cost_calc_buff_size 24 align_8 1000 8 16 = sizeof_uint * (1 + 1000).
Proof.
  assert (H1 : cost_arguments 24 align_8 1000 8 16)
    by (apply cost_arguments_example; lia).
  assert (H2 : 16 < align_8 (24 + 8)) by (vm_compute; reflexivity).
  assert (H3 : sizeof_uint * (1 + 1000) <= INT_MAX)
    by (vm_compute; discriminate).
  exact (get_cost_calc_buff_size_tiny_budget 24 align_8 1000 8 16 H1 H2 H3).
Defined.

(** More keys and a smaller budget. *)
Lemma get_cost_calc_buff_size_monotone_witness :
  get_cost_calc_buff_size 24 align_8 1000 8 320
  <= get_cost_calc_buff_size 24 align_8 2000 8 160.
Proof.
  assert (H1 : cost_arguments 24 align_8 1000 8 320)
    by (apply cost_arguments_example; lia).
  assert (H2 : cost_arguments 24 align_8 2000 8 160)
    by (apply cost_arguments_example; lia).
  assert (H3 : 1000 <= 2000) by lia.
  assert (H4 : 160 <= 320) by lia.
  assert (H5 : sizeof_uint * slots 24 align_8 2000 8 160 <= INT_MAX)
    by (vm_compute; discriminate).
  exact (get_cost_calc_buff_size_monotone 24 align_8 1000 2000 8 320 160
           H1 H2 H3 H4 H5).
Defined.
